(** * jotai-optimistic: optimistic updates with localized rollback

    A shallow embedding of [src/index.ts] (the hooks
    [useSetInitialAtomValueFromQuery], [createDerivedImmerAtom] and
    [useAtomImmerSaga]) together with the properties its specification
    states about them.

    Layout:
    - [JS]      : the JavaScript values the atoms hold, and completions
                  (normal return or thrown exception);
    - [Immer]   : the patch engine the hooks import ([applyPatches],
                  [produceWithPatches]) and recipes as the engine sees
                  them;
    - [Recipes] : some recipes, with the patches the engine records of
                  them;
    - [Store]   : the world the hooks run in: one atom value plus a log of
                  the calls made, as an exception-and-state monad;
    - [Query], [DerivedImmerAtom], [AtomImmerSaga] : the three exported
                  hooks;
    - [Example_*] : concrete sagas, among them the scenario of the
                  specification;
    - the facts about the patch engine and the runner, then the theorems,
      one block per specification claim;
    - further properties of the three hooks (X1 to X16). *)

From stdpp Require Import gmap strings list fin_maps.
From Stdlib Require Import ZArith.

Set Warnings "-register-all".

(* ===================================================================== *)
(** ** JavaScript values and completions                                  *)
(* ===================================================================== *)

Module JS.

(** The values an atom can hold: the JSON-shaped fragment of JavaScript.
    Plain objects are finite maps from property names to values, so two
    objects with the same properties are equal whatever the order in which
    the properties were written.  Numbers are restricted to integers;
    arrays, [Map]s and [Set]s are outside this fragment. *)
Inductive value :=
  | VUndef
  | VNull
  | VBool (b : bool)
  | VNum (n : Z)
  | VStr (s : string)
  | VObj (o : gmap string value).

(** A plain object, the shape [useAtomImmerSaga] requires of its atom
    ([Value extends Objectish]). *)
Abbreviation obj := (gmap string value).

Global Instance value_eq_dec : EqDecision value.
Proof.
  refine (fix go (a b : value) {struct a} : Decision (a = b) :=
    match a, b with
    | VUndef, VUndef | VNull, VNull => left _
    | VBool x, VBool y => cast_if (decide (x = y))
    | VNum x, VNum y => cast_if (decide (x = y))
    | VStr x, VStr y => cast_if (decide (x = y))
    | VObj oa, VObj ob => cast_if (@decide (oa = ob) (@gmap_eq_dec _ _ _ _ go _ _))
    | _, _ => right _
    end); abstract congruence.
Defined.

Global Instance value_inhabited : Inhabited value := populate VUndef.

(** JavaScript's [ToBoolean]: what [if (v)] and [a && v] test. *)
Definition truthy (v : value) : bool :=
  match v with
  | VUndef | VNull => false
  | VBool b => b
  | VNum n => negb (n =? 0)%Z
  | VStr s => match s with EmptyString => false | String _ _ => true end
  | VObj _ => true
  end.

(** Whether a value is an object: objects have an identity, so a newly
    built object is never the same ([Object.is]) as one that was there
    before, whatever it holds; the other values are the same when they are
    equal. *)
Definition is_object (v : value) : bool :=
  match v with VObj _ => true | _ => false end.

(** The outcome of evaluating a JavaScript call: it returns, or it throws.
    Any value can be thrown. *)
Inductive completion (A : Type) :=
  | Normal (a : A)
  | Throw (e : value).
Global Arguments Normal {A} a.
Global Arguments Throw {A} e.

Global Instance completion_ret : MRet completion := λ A a, Normal a.
Global Instance completion_bind : MBind completion := λ A B f c,
  match c with
  | Normal a => f a
  | Throw e => Throw e
  end.
Global Instance completion_fmap : FMap completion := λ A B f c,
  match c with
  | Normal a => Normal (f a)
  | Throw e => Throw e
  end.

(** [TypeError: x is not a function], what calling a missing method
    raises. *)
Definition TypeError_not_a_function (name : string) : value :=
  VStr ("TypeError: " +:+ name +:+ " is not a function").

(** What assigning to a property of something that is not an object
    raises, and what any access to a revoked proxy raises. *)
Definition TypeError_cannot_set : value :=
  VStr "TypeError: cannot set properties of undefined".
Definition TypeError_revoked : value :=
  VStr "TypeError: Cannot perform 'get' on a proxy that has been revoked".

End JS.
Export JS.

(* ===================================================================== *)
(** ** The patch engine                                                   *)
(* ===================================================================== *)

Module Immer.

(** Modelled from the spec: the patch engine ([immer]'s
    [produceWithPatches] and [applyPatches]) is imported by [src/index.ts],
    not defined there.  A patch is a path-addressed description of one
    structural change; patches come in forward/inverse pairs.  This model
    covers plain objects. *)
Inductive op := Add | Replace | Remove.

Record patch := Patch { p_op : op; p_path : list string; p_value : value }.

Global Instance op_eq_dec : EqDecision op.
Proof. solve_decision. Defined.
Global Instance patch_eq_dec : EqDecision patch.
Proof. solve_decision. Defined.

(** The error [applyPatches] dies with when a path does not lead to an
    object. *)
Definition err_unresolved : value :=
  VStr "[Immer] Cannot apply patch, path doesn't resolve".

(** [apply_at op k rest v o]: walk down [k :: rest] from [o]; every step
    but the last must find an object; at the last key, [add] and [replace]
    assign the property and [remove] deletes it. *)
Fixpoint apply_at (o' : op) (k : string) (rest : list string) (v : value)
    (o : obj) : completion obj :=
  match rest with
  | [] =>
      Normal (match o' with
              | Remove => delete k o
              | Add | Replace => <[k := v]> o
              end)
  | k' :: rest' =>
      match o !! k with
      | Some (VObj child) =>
          child' ← apply_at o' k' rest' v child;
          Normal (<[k := VObj child']> o)
      | _ => Throw err_unresolved
      end
  end.

(** One patch applied to a draft.  A patch with the empty path addresses
    the root itself, which a draft cannot replace in place: the engine only
    emits such a patch when a recipe returns a new root, which the recipes
    of [src/index.ts] never do. *)
Definition applyPatch (p : patch) (draft : obj) : completion obj :=
  match p_path p with
  | [] => Throw err_unresolved
  | k :: rest => apply_at (p_op p) k rest (p_value p) draft
  end.

(** [applyPatches(draft, patches)]: the patches in order, stopping at the
    first that throws. *)
Fixpoint applyPatches (ps : list patch) (draft : obj) : completion obj :=
  match ps with
  | [] => Normal draft
  | p :: ps' => draft' ← applyPatch p draft; applyPatches ps' draft'
  end.

(** Modelled from the spec: what the engine has recorded when a recipe
    returns.  The patches depend on how the recipe wrote, not only on what
    the draft held before and after: there is one forward/inverse pair per
    property the recipe assigned or deleted, addressed at that property,
    so that assigning a whole object to a property gives a single
    [replace] of that property even where the old and the new object
    differ in one nested property only, or in none.  [c_modified] tells
    whether the recipe changed its draft at all. *)
Record captured := Captured {
  c_patches : list patch;
  c_inverse : list patch;
  c_modified : bool }.

(** Modelled from the spec: a recipe, a function that mutates the draft it
    is handed, as the engine sees it.  [run_recipe base] is what the
    function does to a draft of [base]: the draft it leaves behind and
    the value it returns, or the exception it throws.  [capture base] is
    what the engine records while the function runs on a draft of [base].
    The three laws are the engine's contract, which the specification
    takes for granted: the forward patches lead from the base to what the
    recipe left, the inverse patches lead back, and a recipe that did not
    change its draft has no patches. *)
Record recipe := Recipe {
  run_recipe :> obj → completion (obj * value);
  capture : obj → captured;
  capture_forward base next ctx :
    run_recipe base = Normal (next, ctx) →
    applyPatches (c_patches (capture base)) base = Normal next;
  capture_inverse base next ctx :
    run_recipe base = Normal (next, ctx) →
    applyPatches (c_inverse (capture base)) next = Normal base;
  capture_unmodified base :
    c_modified (capture base) = false →
    c_patches (capture base) = [] ∧ c_inverse (capture base) = [] }.

(** Modelled from the spec: the next state [produceWithPatches(base,
    recipe)] returns when [base] is itself a draft, as it is in [runSaga].
    When the recipe changed its draft it is a finished copy, a plain
    object that holds what the recipe left (what the copy shares with
    [base], the nested objects the recipe did not touch, is modelled by
    their contents only).  When the recipe changed nothing it is [base]
    itself, the draft of the enclosing store update; that draft is revoked
    when the store update returns, so that whoever holds it afterwards
    holds a revoked proxy, every access to which throws. *)
Inductive next_state :=
  | Snapshot (o : obj)
  | RevokedDraft.

Global Instance next_state_eq_dec : EqDecision next_state.
Proof. solve_decision. Defined.

Definition next_state_of (c : captured) (next : obj) : next_state :=
  if c_modified c then Snapshot next else RevokedDraft.

(** [produceWithPatches(base, (nestedDraft) => { resultContext =
    recipe(nestedDraft) })]: the next state, the forward patches, the
    inverse patches, and the value the recipe returned.  [base] is left as
    it was. *)
Definition produceWithPatches (base : obj) (r : recipe)
    : completion (next_state * list patch * list patch * value) :=
  '(next, resultContext) ← r base;
  let c := capture r base in
  Normal (next_state_of c next, c_patches c, c_inverse c, resultContext).

(** Two paths are disjoint when neither is a prefix of the other: they
    address locations neither of which contains the other. *)
Definition disjoint_paths (p q : list string) : Prop :=
  ¬ p `prefix_of` q ∧ ¬ q `prefix_of` p.

(** Two patch lists are disjoint when every path of the one is disjoint
    from every path of the other. *)
Definition disjoint_patches (ps qs : list patch) : Prop :=
  Forall (λ p, Forall (λ q, disjoint_paths (p_path p) (p_path q)) qs) ps.

Global Instance disjoint_paths_dec p q : Decision (disjoint_paths p q).
Proof. unfold disjoint_paths. apply _. Defined.
Global Instance disjoint_patches_dec ps qs : Decision (disjoint_patches ps qs).
Proof. unfold disjoint_patches. apply _. Defined.

(** The assignment or deletion a patch ends with. *)
Definition leaf (o' : op) (k : string) (v : value) (m : obj) : obj :=
  match o' with Remove => delete k m | Add | Replace => <[k := v]> m end.

End Immer.
Export Immer.

(* ===================================================================== *)
(** ** Recipes                                                            *)
(* ===================================================================== *)

Module Recipes.

(** [draft.k1. ... .kn], absent when a step leaves the objects or the last
    property is missing. *)
Fixpoint get_at (k : string) (rest : list string) (o : obj) : option value :=
  match rest with
  | [] => o !! k
  | k' :: rest' =>
      match o !! k with
      | Some (VObj child) => get_at k' rest' child
      | _ => None
      end
  end.

(** The recipe [draft => { draft.k1. ... .kn = v; return ctx }] run on a
    draft: the assignment throws a [TypeError] when [draft.k1. ... .kn-1]
    is not an object. *)
Definition run_assign (k : string) (rest : list string) (v ctx : value)
    : obj → completion (obj * value) := λ draft,
  match apply_at Replace k rest v draft with
  | Normal draft' => Normal (draft', ctx)
  | Throw _ => Throw TypeError_cannot_set
  end.

(** Modelled from the spec: what the engine records of that assignment.
    Assigning to a property the value it already holds (the same primitive;
    a new object is never the same as the old one) is no change.
    Otherwise the draft is modified and there is one patch pair at the
    assigned property: [replace] with the old value as inverse when the
    base has the property, [add] with [remove] as inverse when it has
    not. *)
Definition capture_assign (k : string) (rest : list string) (v : value)
    (base : obj) : captured :=
  match get_at k rest base with
  | Some orig =>
      if bool_decide (orig = v) && negb (is_object v)
      then Captured [] [] false
      else Captured [Patch Replace (k :: rest) v]
                    [Patch Replace (k :: rest) orig] true
  | None =>
      Captured [Patch Add (k :: rest) v] [Patch Remove (k :: rest) VUndef] true
  end.

Definition assign (k : string) (rest : list string) (v ctx : value) : recipe.
Proof.
  assert (Hat : ∀ rest k (d d' : obj),
    apply_at Replace k rest v d = Normal d' →
    apply_at Add k rest v d = Normal d' ∧
    match get_at k rest d with
    | Some orig =>
        apply_at Replace k rest orig d' = Normal d ∧ (orig = v → d' = d)
    | None => apply_at Remove k rest VUndef d' = Normal d
    end).
  { abstract (
      clear; intros rest; induction rest as [|k' rest IH]; intros k d d' H;
      [ simpl in *; injection H as <-; split; [done|];
        destruct (d !! k) as [orig|] eqn:Hk;
        [ split; [by rewrite insert_insert_eq, insert_id|];
          intros ->; by apply insert_id
        | by rewrite delete_insert_id ]
      | cbn [apply_at get_at] in *;
        destruct (d !! k) as [[| | | | |c]|] eqn:Hk; try done;
        destruct (apply_at Replace k' rest v c) as [c'|] eqn:Hc; [|done];
        simpl in H; injection H as <-;
        destruct (IH k' c c' Hc) as [Hadd Hget]; rewrite Hadd;
        split; [done|]; rewrite lookup_insert_eq;
        destruct (get_at k' rest c) as [orig|];
        [ destruct Hget as [Hrep Hsame]; rewrite Hrep; simpl; split;
          [ by rewrite insert_insert_eq, insert_id
          | intros Hv; rewrite (Hsame Hv); by rewrite insert_id ]
        | rewrite Hget; simpl; by rewrite insert_insert_eq, insert_id ] ]). }
  refine (Recipe (run_assign k rest v ctx) (capture_assign k rest v) _ _ _).
  - abstract (
      intros base next ctx'; unfold run_assign, capture_assign;
      destruct (apply_at Replace k rest v base) as [d'|] eqn:Happ; [|done];
      intros [= <- <-]; destruct (Hat _ _ _ _ Happ) as [Hadd Hget];
      destruct (get_at k rest base) as [orig|];
      [ destruct (bool_decide (orig = v) && negb (is_object v)) eqn:Hsame;
        [ apply andb_prop in Hsame as [Heq%bool_decide_eq_true _];
          simpl; f_equal; symmetry; by apply Hget
        | simpl; unfold applyPatch; simpl; by rewrite Happ ]
      | simpl; unfold applyPatch; simpl; by rewrite Hadd ]).
  - abstract (
      intros base next ctx'; unfold run_assign, capture_assign;
      destruct (apply_at Replace k rest v base) as [d'|] eqn:Happ; [|done];
      intros [= <- <-]; destruct (Hat _ _ _ _ Happ) as [Hadd Hget];
      destruct (get_at k rest base) as [orig|];
      [ destruct (bool_decide (orig = v) && negb (is_object v)) eqn:Hsame;
        [ apply andb_prop in Hsame as [Heq%bool_decide_eq_true _];
          simpl; f_equal; by apply Hget
        | destruct Hget as [Hrep _]; simpl; unfold applyPatch; simpl;
          by rewrite Hrep ]
      | simpl; unfold applyPatch; simpl; by rewrite Hget ]).
  - abstract (
      intros base; unfold capture_assign;
      destruct (get_at k rest base) as [orig|]; [|done];
      by destruct (bool_decide (orig = v) && negb (is_object v))).
Defined.

(** A recipe that only reads its draft: [draft => context(draft)]. *)
Definition reading (context : obj → value) : recipe.
Proof.
  refine (Recipe (λ draft, Normal (draft, context draft))
            (λ _, Captured [] [] false) _ _ _);
    abstract (intros; simpl in *; by simplify_eq).
Defined.

(** A recipe that throws: [draft => { throw e }]. *)
Definition throwing (e : value) : recipe.
Proof.
  refine (Recipe (λ _, Throw e) (λ _, Captured [] [] false) _ _ _);
    abstract done.
Defined.

End Recipes.

(* ===================================================================== *)
(** ** The store: one atom, updated through drafts                        *)
(* ===================================================================== *)

Module Store.

(** What an observer of a run can see: every call made on the atom's
    setter, on the patch engine and on the stage functions, with the
    arguments the call received. *)
Inductive event :=
  | ESetAtomValue
  | ECallUpdate (draft : obj)
  | EApplyPatches (ps : list patch)
  | ECallEffect (next : next_state) (context : value)
  | ECallPostEffect (draft : obj) (effectResult : value)
  | ECallOnError (error : value) (draft : obj).

Global Instance event_eq_dec : EqDecision event.
Proof. solve_decision. Defined.

(** A call [f(a)] or [f(a, b)] as the observer sees it: the log entry
    carries the very arguments the function is applied to. *)
Definition call1 {A R} (ev : A → event) (f : A → R) (a : A) : event * R :=
  (ev a, f a).
Definition call2 {A B R} (ev : A → B → event) (f : A → B → R) (a : A) (b : B)
    : event * R :=
  (ev a b, f a b).

(** Modelled from the spec: the store (a jotai atom written through
    immer, [WritableAtom<Value, [(draft) => void], void>]) is a
    collaborator of [src/index.ts].  It holds one value; [update] runs a
    mutator over a draft of the current value, synchronously and
    atomically.  Inside a mutator [store] is the draft. *)
Record world := World { store : obj; trace : list event }.

(** Computations over the world that may throw. *)
Definition M (A : Type) : Type := world → completion A * world.

Global Instance M_ret : MRet M := λ A a w, (Normal a, w).
Global Instance M_bind : MBind M := λ A B f m w,
  match m w with
  | (Normal a, w') => f a w'
  | (Throw e, w') => (Throw e, w')
  end.

(** A logged call that leaves the store alone. *)
Definition logged {R} (c : event * completion R) : M R := λ w,
  (c.2, World (store w) (trace w ++ [c.1])).

(** A logged call made on the current draft, whose result is the draft it
    leaves behind: that draft becomes the current one. *)
Definition on_draft (c : obj → event * completion obj) : M unit := λ w,
  let c := c (store w) in
  let t := trace w ++ [c.1] in
  match c.2 with
  | Normal d => (Normal (), World d t)
  | Throw e => (Throw e, World (store w) t)
  end.

(** A mutation of the current draft that is not itself logged. *)
Definition mutate_draft (f : obj → completion obj) : M unit := λ w,
  match f (store w) with
  | Normal d => (Normal (), World d (trace w))
  | Throw e => (Throw e, w)
  end.

(** [try { m } catch (e) { h(e) }] *)
Definition try_catch {A} (m : M A) (h : value → M A) : M A := λ w,
  match m w with
  | (Normal a, w') => (Normal a, w')
  | (Throw e, w') => h e w'
  end.

(** [setAtomValue(fn)]: one atomic store update.  [fn] runs over a draft
    of the current value; when it returns the draft is committed, when it
    throws the draft is dropped, the store keeps its value and the
    exception reaches the caller. *)
Definition setAtomValue {A} (fn : M A) : M A := λ w,
  match fn (World (store w) (trace w ++ [ESetAtomValue])) with
  | (Normal a, w') => (Normal a, w')
  | (Throw e, w') => (Throw e, World (store w) (trace w'))
  end.

(** [produceWithPatches(draft, (nestedDraft) => { resultContext =
    runUpdate(nestedDraft) })] inside a mutator: [runUpdate] is called on a
    nested draft of the current draft, which is left as it was. *)
Definition produceWithPatchesM (runUpdate : recipe)
    : M (next_state * list patch * list patch * value) := λ w,
  logged (call1 ECallUpdate (λ nestedDraft, produceWithPatches nestedDraft runUpdate)
            (store w)) w.

(** [applyPatches(draft, patches)] inside a mutator. *)
Definition applyPatchesM (ps : list patch) : M unit :=
  on_draft (λ draft, call1 EApplyPatches (λ ps, applyPatches ps draft) ps).

(** Tests on events, and how many events of a trace pass a test. *)
Definition is_setAtomValue (ev : event) : bool :=
  match ev with ESetAtomValue => true | _ => false end.
Definition is_applyPatches (ev : event) : bool :=
  match ev with EApplyPatches _ => true | _ => false end.
Definition is_effect_call (ev : event) : bool :=
  match ev with ECallEffect _ _ => true | _ => false end.
Definition is_postEffect_call (ev : event) : bool :=
  match ev with ECallPostEffect _ _ => true | _ => false end.
Definition is_onError_call (ev : event) : bool :=
  match ev with ECallOnError _ _ => true | _ => false end.

Definition count_events (P : event → bool) (t : list event) : nat :=
  length (List.filter P t).

End Store.
Export Store.
(* ===================================================================== *)
(** ** [useSetInitialAtomValueFromQuery]                                  *)
(* ===================================================================== *)

Module Query.

(** The atom this hook seeds takes plain values
    ([WritableAtom<AtomValue, [AtomValue], unknown>]): its state is the
    value it holds and the values it was written with, oldest first. *)
Record atom_state := AtomState { current : value; writes : list value }.

(** [setAtomValue(v)] on that atom. *)
Definition setAtomValue (v : value) (a : atom_state) : atom_state :=
  AtomState v (writes a ++ [v]).

(** The body of the hook's [useEffect] callback:
    [if (!isLoading && queryData) setAtomValue(queryData)].
    An absent [queryData] is [VUndef]. *)
Definition useSetInitialAtomValueFromQuery_effect
    (queryData : value) (isLoading : bool) (a : atom_state) : atom_state :=
  if negb isLoading && truthy queryData
  then setAtomValue queryData a
  else a.

(** What the component passes to the hook on one render. *)
Record props := Props { queryData : value; isLoading : bool }.

Global Instance props_eq_dec : EqDecision props.
Proof. solve_decision. Defined.

(** [useEffect(cb, [setAtomValue, queryData, isLoading])]: the callback
    runs after the first render and after every render whose dependencies
    differ from those of the render before ([setAtomValue] is stable).
    [same] is the comparison of dependencies: React's [Object.is], which
    on primitives is equality and on objects identity. *)
Fixpoint rerenders (same : props → props → bool) (prev : props)
    (rs : list props) (a : atom_state) : atom_state :=
  match rs with
  | [] => a
  | r :: rs' =>
      rerenders same r rs'
        (if same r prev then a
         else useSetInitialAtomValueFromQuery_effect
                (queryData r) (isLoading r) a)
  end.

Definition useSetInitialAtomValueFromQuery (same : props → props → bool)
    (rs : list props) (a : atom_state) : atom_state :=
  match rs with
  | [] => a
  | r :: rs' =>
      rerenders same r rs'
        (useSetInitialAtomValueFromQuery_effect (queryData r) (isLoading r) a)
  end.

(** The comparison when every object keeps its identity while its
    contents are unchanged. *)
Definition same_props (r prev : props) : bool := bool_decide (r = prev).

End Query.

(* ===================================================================== *)
(** ** [createDerivedImmerAtom]                                           *)
(* ===================================================================== *)

Module DerivedImmerAtom.

(** The values that are not objects. *)
Inductive primitive :=
  | PrUndef
  | PrNull
  | PrBool (b : bool)
  | PrNum (n : Z)
  | PrStr (s : string).

Definition prim_value (p : primitive) : value :=
  match p with
  | PrUndef => VUndef
  | PrNull => VNull
  | PrBool b => VBool b
  | PrNum n => VNum n
  | PrStr s => VStr s
  end.

(** What [getDerivedValue] hands back when it is run on a draft of the
    parent: either a sub-draft, the object found at some path inside the
    parent draft (an alias: mutating it mutates the parent draft), or a
    value that is not an object ([undefined], a primitive).  A projection
    that builds a new object is outside this model: such an object can
    hold sub-drafts of the parent, and a mutator that writes through them
    mutates the parent. *)
Inductive projection :=
  | PDraft (path : list string)
  | PValue (v : primitive).

(** A projection function, as it behaves on a given parent value; it may
    throw (reading a property of [undefined]). *)
Definition projector := obj → completion projection.

(** An immer update function ([ImmerUpdateFn]): what it does to the object
    draft it is handed, and whether it returns or throws when handed
    something that is not an object and so cannot be mutated. *)
Record mutator := Mutator {
  on_object : obj → completion obj;
  on_other : value → completion unit }.

(** Reading a path from a value: [v.k1.k2...], absent when a step leaves
    the objects. *)
Fixpoint lookup_path (p : list string) (v : value) : option value :=
  match p with
  | [] => Some v
  | k :: rest =>
      match v with
      | VObj o => o !! k ≫= lookup_path rest
      | _ => None
      end
  end.

(** Writing a value back at a path of a draft whose prefix steps are
    objects; the root itself is written when the path is empty and the
    value an object. *)
Fixpoint store_path (p : list string) (v : value) (o : obj) : obj :=
  match p with
  | [] => match v with VObj o' => o' | _ => o end
  | [k] => <[k := v]> o
  | k :: rest =>
      match o !! k with
      | Some (VObj c) => <[k := VObj (store_path rest v c)]> o
      | _ => o
      end
  end.

(** The value a projection denotes in a given parent value. *)
Definition deref (pr : projection) (parent : obj) : value :=
  match pr with
  | PDraft path => default VUndef (lookup_path path (VObj parent))
  | PValue v => prim_value v
  end.

(** The read half of the derived atom:
    [castImmutable(getDerivedValue(get(rootAtom)))]. *)
Definition read (getDerivedValue : projector) (root : obj) : completion value :=
  pr ← getDerivedValue root; mret (deref pr root).

(** [update(subObject)]: the mutator run on what the projection returned.
    Through a sub-draft the parent draft is mutated at the sub-draft's
    place; a value that is not an object cannot be mutated, and the parent
    draft is left as it is. *)
Definition update_subObject (pr : projection) (update : mutator)
    (draft : obj) : completion obj :=
  match pr with
  | PDraft path =>
      match lookup_path path (VObj draft) with
      | Some (VObj sub) =>
          sub' ← on_object update sub;
          mret (store_path path (VObj sub') draft)
      | Some v => on_other update v;; mret draft
      | None => on_other update VUndef;; mret draft
      end
  | PValue v => on_other update (prim_value v);; mret draft
  end.

(** The write half of the derived atom:
    [set(rootAtom, (draft) => { const subObject = getDerivedValue(draft);
                                update(subObject); })]. *)
Definition write (getDerivedValue : projector) (update : mutator) : M unit :=
  Store.setAtomValue
    (mutate_draft (λ draft,
       subObject ← getDerivedValue draft;
       update_subObject subObject update draft)).

(** The derived atom: its read and write halves over the root atom, which
    is the atom of the world. *)
Record derived_atom := DerivedAtom {
  atom_read : obj → completion value;
  atom_write : mutator → M unit }.

Definition createDerivedImmerAtom (getDerivedValue : projector)
    : derived_atom :=
  DerivedAtom (read getDerivedValue) (write getDerivedValue).

(** Following the spec's words: an update written by hand against the
    parent store and addressed at the lens's path, mutating in place the
    object found there. *)
Fixpoint update_at_path (p : list string) (f : obj → completion obj)
    (o : obj) : completion obj :=
  match p with
  | [] => f o
  | k :: rest =>
      match o !! k with
      | Some (VObj c) =>
          c' ← update_at_path rest f c; mret (<[k := VObj c']> o)
      | _ => Throw (VStr "TypeError: cannot read properties of undefined")
      end
  end.

End DerivedImmerAtom.

(* ===================================================================== *)
(** ** [useAtomImmerSaga]                                                 *)
(* ===================================================================== *)

Module AtomImmerSaga.

(** A promise, by what becomes of it: it resolves with a value, rejects
    with a reason, or never settles. *)
Inductive promise :=
  | Resolves (effectResult : value)
  | Rejects (error : value)
  | NeverSettles.

(** The stage functions.  [update] is a recipe: it mutates the draft it is
    handed and returns the context; [effect] is called with what
    [runSaga] kept as next state and with the context, and either throws
    before it has a promise to return or returns one; [postEffect] and
    [onError] mutate a draft and are synchronous, as the builder types them
    ([=> void]).  Contexts, effect results and errors are [unknown] to
    [runSaga]: any value. *)
Definition update_fn := recipe.
Definition effect_fn := next_state → value → completion promise.
Definition postEffect_fn := obj → value → completion obj.
Definition onError_fn := value → obj → completion obj.

(** The [Saga] descriptor: every stage is optional. *)
Record Saga := mkSaga {
  update : option update_fn;
  effect : option effect_fn;
  postEffect : option postEffect_fn;
  onError : option onError_fn }.

(** [const saga = {}] *)
Definition empty_saga : Saga := mkSaga None None None None.

(** The three methods of the [collector] object.  Each assigns its
    argument to its stage of [saga] and returns [collector] itself, so a
    chain [saga.update(f).effect(g)] is two calls on the one collector. *)
Definition collector_update (updateFn : update_fn) (saga : Saga) : Saga :=
  mkSaga (Some updateFn) (effect saga) (postEffect saga) (onError saga).
Definition collector_effect (effectFn : effect_fn) (saga : Saga) : Saga :=
  mkSaga (update saga) (Some effectFn) (postEffect saga) (onError saga).
Definition collector_postEffect (postEffectFn : postEffect_fn) (saga : Saga)
    : Saga :=
  mkSaga (update saga) (effect saga) (Some postEffectFn) (onError saga).

(** A method call the saga-declaration callback makes on the collector.
    The README declares sagas with [.onError(fn)] as well, so that call is
    one a callback can make. *)
Inductive builder_call :=
  | CallUpdate (updateFn : update_fn)
  | CallEffect (effectFn : effect_fn)
  | CallPostEffect (postEffectFn : postEffect_fn)
  | CallOnError (onErrorFn : onError_fn).

(** Evaluating one call: [collector] has the properties [update], [effect]
    and [postEffect] and no other, so [collector.onError] is [undefined]
    and calling it throws. *)
Definition collector (c : builder_call) (saga : Saga) : completion Saga :=
  match c with
  | CallUpdate f => Normal (collector_update f saga)
  | CallEffect f => Normal (collector_effect f saga)
  | CallPostEffect f => Normal (collector_postEffect f saga)
  | CallOnError _ => Throw (TypeError_not_a_function "collector.onError")
  end.

Definition is_update_call (c : builder_call) : bool :=
  match c with CallUpdate _ => true | _ => false end.

(** Following the spec's words: after any number of calls, a stage of the
    descriptor holds only the function from the last call of that stage's
    method. *)
Definition update_of (c : builder_call) : option update_fn :=
  match c with CallUpdate f => Some f | _ => None end.
Definition effect_of (c : builder_call) : option effect_fn :=
  match c with CallEffect f => Some f | _ => None end.
Definition postEffect_of (c : builder_call) : option postEffect_fn :=
  match c with CallPostEffect f => Some f | _ => None end.

Fixpoint last_call {F} (stage : builder_call → option F)
    (calls : list builder_call) : option F :=
  match calls with
  | [] => None
  | c :: calls' =>
      match last_call stage calls' with
      | Some f => Some f
      | None => stage c
      end
  end.

(** [sagaCollectorFn(collector)]: the calls of the callback, in order. *)
Fixpoint sagaCollectorFn (calls : list builder_call) (saga : Saga)
    : completion Saga :=
  match calls with
  | [] => Normal saga
  | c :: calls' => saga' ← collector c saga; sagaCollectorFn calls' saga'
  end.

(** What the [.then]/[.catch] handlers attached to the effect's promise
    close over. *)
Record pending := mkPending {
  pd_promise : promise;
  pd_runPostEffect : option postEffect_fn;
  pd_inversePatches : list patch;
  pd_onError : option onError_fn }.

(** The optimistic update: one store update whose mutator runs
    [runUpdate] under [produceWithPatches] on the current draft, applies
    the forward patches to that draft, and keeps the next state as the
    engine returned it, the inverse patches and the context. *)
Definition optimistic_update (runUpdate : update_fn)
    : M (next_state * list patch * value) :=
  Store.setAtomValue (
    '(nestedNextState, nestedPatches, nestedInversePatches, resultContext) ←
      produceWithPatchesM runUpdate;
    applyPatchesM nestedPatches;;
    mret (nestedNextState, nestedInversePatches, resultContext)).

(** The synchronous part of [runSaga], after the saga is collected. *)
Definition run_stages (saga : Saga) : M (option pending) :=
  match update saga with
  | None => mret None
  | Some runUpdate =>
      '(nextState, inversePatches, resultContext) ← optimistic_update runUpdate;
      match effect saga with
      | None => mret None
      | Some runEffect =>
          p ← logged (call2 ECallEffect runEffect nextState resultContext);
          mret (Some (mkPending p (postEffect saga) inversePatches
                        (onError saga)))
      end
  end.

(** [runSaga(sagaCollectorFn)]: collect, then run.  The result is what is
    left pending when the call returns. *)
Definition runSaga (calls : list builder_call) : M (option pending) := λ w,
  match sagaCollectorFn calls empty_saga with
  | Normal saga => run_stages saga w
  | Throw e => (Throw e, w)
  end.

(** The [.then] handler. *)
Definition on_fulfilled (pd : pending) (effectResult : value) : M unit :=
  match pd_runPostEffect pd with
  | Some runPostEffect =>
      Store.setAtomValue
        (on_draft (λ draft,
           call2 ECallPostEffect runPostEffect draft effectResult))
  | None => mret ()
  end.

(** The [.catch] handler. *)
Definition on_rejected (pd : pending) (error : value) : M unit :=
  Store.setAtomValue (applyPatchesM (pd_inversePatches pd));;
  match pd_onError pd with
  | Some onError =>
      Store.setAtomValue
        (on_draft (λ draft, call2 ECallOnError onError error draft))
  | None => mret ()
  end.

(** The promise settles: [p.then(h1).catch(h2)] runs [h1] when [p]
    resolves and [h2] when [p] rejects or [h1] throws.  A [Throw] out of
    [settle] is the rejection of the chain's last promise, which nothing
    handles. *)
Definition settle (pd : pending) : M unit :=
  match pd_promise pd with
  | Resolves effectResult =>
      try_catch (on_fulfilled pd effectResult) (on_rejected pd)
  | Rejects error => on_rejected pd error
  | NeverSettles => mret ()
  end.

(** Another writer of the same atom committing a mutation. *)
Definition concurrent_update (f : obj → completion obj) : M unit :=
  Store.setAtomValue (mutate_draft f).

(** A whole run: the saga is started, other writers act while the effect
    is in flight, then the effect's promise settles. *)
Definition run (calls : list builder_call) (meanwhile : M unit) : M unit :=
  pd ← runSaga calls;
  meanwhile;;
  match pd with
  | Some pd => settle pd
  | None => mret ()
  end.

(** The same, for a saga descriptor that is already assembled. *)
Definition run_saga_descriptor (saga : Saga) (meanwhile : M unit) : M unit :=
  pd ← run_stages saga;
  meanwhile;;
  match pd with
  | Some pd => settle pd
  | None => mret ()
  end.

(** The hook's result: the atom's value and [runSaga]. *)
Definition useAtomImmerSaga (w : world)
    : obj * (list builder_call → M (option pending)) :=
  (store w, runSaga).

(** The world the synchronous part of a saga leaves behind when its
    update stage [u] has turned the store's value into [next] and returned
    [ctx], and its effect stage has been called. *)
Definition after_update (w : world) (u : update_fn) (next : obj) (ctx : value)
    : world :=
  World next (trace w ++ [ESetAtomValue; ECallUpdate (store w);
      EApplyPatches (c_patches (capture u (store w)));
      ECallEffect (next_state_of (capture u (store w)) next) ctx]).

End AtomImmerSaga.
Import AtomImmerSaga.

(* ===================================================================== *)
(** ** Concrete sagas                                                     *)
(* ===================================================================== *)

(** The scenario of the specification: the store holds
    [{ flag: false, error: null }], here with the sibling field [count];
    the update sets [flag], the effect rejects with ["network down"];
    meanwhile an unrelated writer bumps [count]. *)
Module Example_spec.
Definition s0 : obj :=
  {[ "flag" := VBool false; "error" := VNull; "count" := VNum 0 ]}.
Definition s1 : obj := <["flag" := VBool true]> s0.
(** [draft => { draft.flag = true; return {} }] *)
Definition set_flag : update_fn :=
  Recipes.assign "flag" [] (VBool true) (VObj ∅).
Definition network_down : effect_fn :=
  λ _ _, Normal (Rejects (VStr "network down")).
Definition bump_count : obj → completion obj :=
  λ d, Normal (<["count" := VNum 1]> d).
Definition declaration : list builder_call :=
  [CallUpdate set_flag; CallEffect network_down].
Definition saga : Saga :=
  mkSaga (Some set_flag) (Some network_down) None None.
Definition left_pending : pending :=
  mkPending (Rejects (VStr "network down")) None
    [Patch Replace ["flag"] (VBool false)] None.
End Example_spec.

(** The same saga with its onError stage, first written straight into the
    descriptor, then declared the way the README declares it. *)
Module Example_onError.
Definition record_error : onError_fn := λ err d, Normal (<["error" := err]> d).
Definition saga : Saga :=
  mkSaga (Some Example_spec.set_flag) (Some Example_spec.network_down) None
    (Some record_error).
Definition left_pending : pending :=
  mkPending (Rejects (VStr "network down")) None
    [Patch Replace ["flag"] (VBool false)] (Some record_error).
Definition failing : onError_fn := λ _ _, Throw (VStr "onError failed").
Definition left_pending_failing : pending :=
  mkPending (Rejects (VStr "network down")) None
    [Patch Replace ["flag"] (VBool false)] (Some failing).
Definition declaration : list builder_call :=
  [CallUpdate Example_spec.set_flag; CallEffect Example_spec.network_down;
   CallOnError record_error].
End Example_onError.

(** A saga whose effect resolves with a server-side identifier that
    postEffect stores. *)
Module Example_success.
Definition resolves_id : effect_fn := λ _ _, Normal (Resolves (VStr "id-7")).
Definition store_id : postEffect_fn := λ d r, Normal (<["id" := r]> d).
Definition saga : Saga :=
  mkSaga (Some Example_spec.set_flag) (Some resolves_id) (Some store_id) None.
End Example_success.

(** A saga whose effect resolves and whose postEffect throws. *)
Module Example_postEffect_throws.
Definition boom : postEffect_fn := λ _ _, Throw (VStr "boom").
Definition declaration : list builder_call :=
  [CallUpdate Example_spec.set_flag; CallEffect Example_success.resolves_id;
   CallPostEffect boom].
Definition outcome : completion unit * world :=
  run declaration (mret ()) (World Example_spec.s0 []).
Definition left_pending : pending :=
  mkPending (Resolves (VStr "id-7")) (Some boom)
    [Patch Replace ["flag"] (VBool false)] None.
End Example_postEffect_throws.

(** An item is added optimistically, the server saves it, and the
    postEffect that should record the saved id throws. *)
Module Example_postEffect_caught.
Definition s0 : obj := {[ "items" := VObj ∅ ]}.
(** [draft => { draft.items = { tmp: "draft" }; return "tmp" }] *)
Definition add_item : update_fn :=
  Recipes.assign "items" [] (VObj {[ "tmp" := VStr "draft" ]}) (VStr "tmp").
Definition saved : effect_fn := λ _ _, Normal (Resolves (VNum 42)).
Definition rename_item : postEffect_fn := λ _ _, Throw TypeError_cannot_set.
Definition declaration : list builder_call :=
  [CallUpdate add_item; CallEffect saved; CallPostEffect rename_item].
Definition outcome : completion unit * world :=
  run declaration (mret ()) (World s0 []).
End Example_postEffect_caught.

(** A saga whose update stage throws. *)
Module Example_update_throws.
Definition bad_update : update_fn := Recipes.throwing (VStr "update failed").
Definition saga : Saga :=
  mkSaga (Some bad_update) (Some Example_spec.network_down) None None.
End Example_update_throws.

(** A saga whose update stage only reads the draft and whose effect reads
    a property of the next state it is handed:
    [saga.update(draft => draft.count).effect(next => save(next.count))]. *)
Module Example_read_only.
Definition read_count : update_fn :=
  Recipes.reading (λ d, default VUndef (d !! "count")).
Definition save_count : effect_fn := λ next _,
  match next with
  | Snapshot o => Normal (Resolves (default VUndef (o !! "count")))
  | RevokedDraft => Throw TypeError_revoked
  end.
Definition declaration : list builder_call :=
  [CallUpdate read_count; CallEffect save_count].
Definition declaration_failing : list builder_call :=
  [CallUpdate read_count; CallEffect Example_spec.network_down].
Definition saga : Saga :=
  mkSaga (Some read_count) (Some Example_spec.network_down) None None.
End Example_read_only.

(** [bawno => bawno.anotherObject] over a parent with a nested object. *)
Module Example_lens.
Import DerivedImmerAtom.
Definition parent : obj :=
  {[ "anotherObject" := VObj {[ "nestedNumber" := VNum 1 ]};
     "title" := VStr "t" ]}.
Definition anotherObject : projector := λ _, Normal (PDraft ["anotherObject"]).
Definition set_name : mutator :=
  Mutator (λ d, Normal (<["name" := VStr "n"]> d))
    (λ _, Throw TypeError_cannot_set).
End Example_lens.

(* ===================================================================== *)
(** ** Further operations and scenarios                                   *)
(* ===================================================================== *)

(** Sequences of renders of [useSetInitialAtomValueFromQuery]. *)
Module QueryRenders.
Import Query.

(** A render on which the effect's test [!isLoading && queryData]
    passes. *)
Definition ready (r : props) : bool :=
  negb (isLoading r) && truthy (queryData r).

(** Every render of [rs] has dependencies that differ from those of the
    render before it, the first from those of [prev]. *)
Fixpoint all_changed (same : props → props → bool) (prev : props)
    (rs : list props) : bool :=
  match rs with
  | [] => true
  | r :: rs' => negb (same r prev) && all_changed same r rs'
  end.

End QueryRenders.

(** The builder's methods by name. *)
Module BuilderCalls.

(** The property of [collector] a call looks up. *)
Definition method_name (c : builder_call) : string :=
  match c with
  | CallUpdate _ => "update"
  | CallEffect _ => "effect"
  | CallPostEffect _ => "postEffect"
  | CallOnError _ => "onError"
  end.

End BuilderCalls.

(** Two sagas started one after the other on the same atom, their effects
    in flight together and settling in either order. *)
Module TwoSagas.




End TwoSagas.

(** A second saga beside the one of the specification's scenario: it
    bumps [count] and its effect fails too. *)
Module Example_two_sagas.
(** [draft => { draft.count = 1; return null }] *)
Definition bump : update_fn := Recipes.assign "count" [] (VNum 1) VNull.
Definition timeout : effect_fn := λ _ _, Normal (Rejects (VStr "timeout")).
Definition declaration : list builder_call :=
  [CallUpdate bump; CallEffect timeout].
Definition saga : Saga := mkSaga (Some bump) (Some timeout) None None.
End Example_two_sagas.

(** A saga that edits a property of a nested object; while its effect is
    in flight another writer deletes that object. *)
Module Example_failed_rollback.
Definition s0 : obj := {[ "a" := VObj {[ "x" := VNum 0 ]}; "b" := VNum 7 ]}.
Definition s1 : obj := {[ "a" := VObj {[ "x" := VNum 1 ]}; "b" := VNum 7 ]}.
Definition s2 : obj := {[ "b" := VNum 7 ]}.
(** [draft => { draft.a.x = 1; return null }] *)
Definition set_x : update_fn := Recipes.assign "a" ["x"] (VNum 1) VNull.
Definition delete_a : obj → completion obj := λ d, Normal (delete "a" d).
Definition record_error : onError_fn := λ err d, Normal (<["error" := err]> d).
Definition saga : Saga :=
  mkSaga (Some set_x) (Some Example_spec.network_down) None (Some record_error).
End Example_failed_rollback.

(** An effect function that throws before it has a promise to return. *)
Module Example_effect_throws.
Definition offline : effect_fn := λ _ _, Throw (VStr "offline").
Definition saga : Saga :=
  mkSaga (Some Example_spec.set_flag) (Some offline) None None.
End Example_effect_throws.

(** A saga with an update stage and a postEffect stage and no effect
    stage. *)
Module Example_no_effect.
Definition saga : Saga :=
  mkSaga (Some Example_spec.set_flag) None (Some Example_success.store_id) None.
End Example_no_effect.

(** [bawno => bawno.list.find(...)] when nothing is found, and the
    projection of a property that holds a string. *)
Module Example_lens_missing.
Import DerivedImmerAtom.
Definition not_found : projector := λ _, Normal (PValue PrUndef).
Definition title : projector := λ _, Normal (PDraft ["title"]).
Definition touch : mutator := Mutator (λ d, Normal d) (λ _, Normal ()).
End Example_lens_missing.

(** While the saga of the specification's scenario is in flight, another
    writer sets the very flag the saga set. *)
Module Example_same_field.
Definition overwrite_flag : obj → completion obj :=
  λ d, Normal (<["flag" := VStr "maybe"]> d).
End Example_same_field.

(** A saga that assigns a whole object where another would have assigned
    one property of it; while its effect is in flight another writer adds
    a property to that object. *)
Module Example_whole_object.
Definition s0 : obj := {[ "items" := VObj ∅ ]}.
(** [draft => { draft.items.tmp = "draft"; return "tmp" }] *)
Definition add_tmp : update_fn :=
  Recipes.assign "items" ["tmp"] (VStr "draft") (VStr "tmp").
(** [draft => { draft.items.other = 1 }] *)
Definition add_other : obj → completion obj := λ d,
  match d !! "items" with
  | Some (VObj items) => Normal (<["items" := VObj (<["other" := VNum 1]> items)]> d)
  | _ => Throw TypeError_cannot_set
  end.
Definition whole : list builder_call :=
  [CallUpdate Example_postEffect_caught.add_item;
   CallEffect Example_spec.network_down].
Definition one_property : list builder_call :=
  [CallUpdate add_tmp; CallEffect Example_spec.network_down].
End Example_whole_object.

(* ===================================================================== *)
(** ** Facts about the patch engine                                       *)
(* ===================================================================== *)

Section patch_engine.

(** *** Disjoint patches commute *)

Lemma disjoint_paths_head k1 r1 k2 r2 :
  disjoint_paths (k1 :: r1) (k2 :: r2) →
  k1 ≠ k2 ∨ (k1 = k2 ∧ r1 ≠ [] ∧ r2 ≠ [] ∧ disjoint_paths r1 r2).
Proof.
  intros [H12 H21]. destruct (decide (k1 = k2)) as [->|]; [right|by left].
  repeat split.
  - intros ->. apply H12, prefix_cons, prefix_nil.
  - intros ->. apply H21, prefix_cons, prefix_nil.
  - intros ?. by apply H12, prefix_cons.
  - intros ?. by apply H21, prefix_cons.
Qed.

Lemma apply_at_leaf o' k v m : apply_at o' k [] v m = Normal (leaf o' k v m).
Proof. done. Qed.

Lemma lookup_leaf_ne o' k v (m : obj) k' :
  k ≠ k' → leaf o' k v m !! k' = m !! k'.
Proof.
  intros. destruct o'; simpl;
    by rewrite ?lookup_insert_ne, ?lookup_delete_ne by done.
Qed.

Lemma leaf_insert_commute o' k v (m : obj) k' x :
  k ≠ k' → leaf o' k v (<[k' := x]> m) = <[k' := x]> (leaf o' k v m).
Proof.
  intros. destruct o'; simpl.
  - by apply insert_insert_ne.
  - by apply insert_insert_ne.
  - by rewrite delete_insert_ne.
Qed.

Lemma leaf_commute o1 k1 v1 o2 k2 v2 (m : obj) :
  k1 ≠ k2 →
  leaf o1 k1 v1 (leaf o2 k2 v2 m) = leaf o2 k2 v2 (leaf o1 k1 v1 m).
Proof.
  intros. destruct o2; simpl.
  - by apply leaf_insert_commute.
  - by apply leaf_insert_commute.
  - destruct o1; simpl.
    + by rewrite delete_insert_ne.
    + by rewrite delete_insert_ne.
    + apply delete_delete.
Qed.

Lemma apply_at_cons_inv o' k k' rest v (m m' : obj) :
  apply_at o' k (k' :: rest) v m = Normal m' →
  ∃ c c', m !! k = Some (VObj c) ∧ apply_at o' k' rest v c = Normal c' ∧
          m' = <[k := VObj c']> m.
Proof.
  simpl. destruct (m !! k) as [[| | | | |c]|]; try done.
  destruct (apply_at o' k' rest v c) as [c'|] eqn:Hc; simpl; [|done].
  intros [= <-]. eauto.
Qed.

Lemma apply_at_cons o' k k' rest v (m c c' : obj) :
  m !! k = Some (VObj c) → apply_at o' k' rest v c = Normal c' →
  apply_at o' k (k' :: rest) v m = Normal (<[k := VObj c']> m).
Proof. intros Hk Hc. simpl. by rewrite Hk, Hc. Qed.

(** Two patches at disjoint paths that both apply to a draft apply in
    either order, with the same result. *)
Lemma apply_at_diamond r1 : ∀ r2 k1 k2 o1 o2 v1 v2 (m m1 m2 : obj),
  disjoint_paths (k1 :: r1) (k2 :: r2) →
  apply_at o1 k1 r1 v1 m = Normal m1 →
  apply_at o2 k2 r2 v2 m = Normal m2 →
  ∃ m3, apply_at o2 k2 r2 v2 m1 = Normal m3 ∧
        apply_at o1 k1 r1 v1 m2 = Normal m3.
Proof.
  induction r1 as [|k1' r1 IH]; intros [|k2' r2] k1 k2 o1 o2 v1 v2 m m1 m2 Hd H1 H2.
  - destruct (disjoint_paths_head _ _ _ _ Hd) as [Hne|(_ & ? & _)]; [|done].
    rewrite apply_at_leaf in *. injection H1 as <-. injection H2 as <-.
    eexists. split; [done|]. by rewrite leaf_commute.
  - destruct (disjoint_paths_head _ _ _ _ Hd) as [Hne|(_ & ? & _)]; [|done].
    rewrite apply_at_leaf in *. injection H1 as <-.
    apply apply_at_cons_inv in H2 as (c & c' & Hk & Hc & ->).
    eexists. split.
    + eapply apply_at_cons; [|done]. by rewrite lookup_leaf_ne.
    + by rewrite leaf_insert_commute.
  - destruct (disjoint_paths_head _ _ _ _ Hd) as [Hne|(_ & _ & ? & _)]; [|done].
    rewrite apply_at_leaf in *. injection H2 as <-.
    apply apply_at_cons_inv in H1 as (c & c' & Hk & Hc & ->).
    eexists. split.
    + by rewrite leaf_insert_commute.
    + eapply apply_at_cons; [|done]. by rewrite lookup_leaf_ne.
  - apply apply_at_cons_inv in H1 as (c1 & c1' & Hk1 & Hc1 & ->).
    apply apply_at_cons_inv in H2 as (c2 & c2' & Hk2 & Hc2 & ->).
    destruct (disjoint_paths_head _ _ _ _ Hd) as [Hne|(-> & _ & _ & Hd')].
    + eexists. split.
      * eapply apply_at_cons; [|done]. by rewrite lookup_insert_ne.
      * rewrite (apply_at_cons _ _ _ _ _ _ c1 c1'); [|by rewrite lookup_insert_ne|done].
        by rewrite insert_insert_ne.
    + assert (c2 = c1) as -> by congruence.
      destruct (IH _ _ _ _ _ _ _ _ _ _ Hd' Hc1 Hc2) as (c3 & H21 & H12).
      exists (<[k2 := VObj c3]> m). split.
      * rewrite (apply_at_cons _ _ _ _ _ _ c1' c3); [|by rewrite lookup_insert_eq|done].
        by rewrite insert_insert_eq.
      * rewrite (apply_at_cons _ _ _ _ _ _ c2' c3); [|by rewrite lookup_insert_eq|done].
        by rewrite insert_insert_eq.
Qed.

Lemma applyPatch_diamond p q (m m1 m2 : obj) :
  disjoint_paths (p_path p) (p_path q) →
  applyPatch p m = Normal m1 → applyPatch q m = Normal m2 →
  ∃ m3, applyPatch q m1 = Normal m3 ∧ applyPatch p m2 = Normal m3.
Proof.
  unfold applyPatch. destruct (p_path p), (p_path q); try done.
  apply apply_at_diamond.
Qed.

Lemma applyPatches_cons_inv p ps (m m' : obj) :
  applyPatches (p :: ps) m = Normal m' →
  ∃ m1, applyPatch p m = Normal m1 ∧ applyPatches ps m1 = Normal m'.
Proof. simpl. destruct (applyPatch p m); [eauto|done]. Qed.

Lemma applyPatches_strip p qs : ∀ (m m1 m2 : obj),
  Forall (λ q, disjoint_paths (p_path p) (p_path q)) qs →
  applyPatch p m = Normal m1 → applyPatches qs m = Normal m2 →
  ∃ m3, applyPatches qs m1 = Normal m3 ∧ applyPatch p m2 = Normal m3.
Proof.
  induction qs as [|q qs IH]; intros m m1 m2 Hd Hp Hqs.
  - injection Hqs as <-. eauto.
  - apply applyPatches_cons_inv in Hqs as (mq & Hq & Hqs).
    destruct (applyPatch_diamond p q m m1 mq) as (m' & Hq' & Hp'); [|done|done|].
    { by apply Forall_cons_1 in Hd as [? _]. }
    destruct (IH mq m' m2) as (m3 & Hqs' & Hp''); [|done|done|].
    { by apply Forall_cons_1 in Hd as [_ ?]. }
    exists m3. split; [|done]. simpl. by rewrite Hq'.
Qed.

(** The same for two lists of patches, every path of the one disjoint
    from every path of the other. *)
Lemma applyPatches_diamond ps : ∀ qs (m m1 m2 : obj),
  disjoint_patches ps qs →
  applyPatches ps m = Normal m1 → applyPatches qs m = Normal m2 →
  ∃ m3, applyPatches qs m1 = Normal m3 ∧ applyPatches ps m2 = Normal m3.
Proof.
  induction ps as [|p ps IH]; intros qs m m1 m2 Hd Hps Hqs.
  - injection Hps as <-. eauto.
  - apply applyPatches_cons_inv in Hps as (mp & Hp & Hps).
    destruct (applyPatches_strip p qs m mp m2) as (m' & Hqs' & Hp'); [|done|done|].
    { by apply Forall_cons_1 in Hd as [? _]. }
    destruct (IH qs mp m1 m') as (m3 & Hqs'' & Hps'); [|done|done|].
    { by apply Forall_cons_1 in Hd as [_ ?]. }
    exists m3. split; [done|]. simpl. by rewrite Hp'.
Qed.


(** The only error the patch engine throws. *)
Lemma applyPatches_Throw ps : ∀ (m : obj) x,
  applyPatches ps m = Throw x → x = err_unresolved.
Proof.
  assert (Hat : ∀ rest o' k v (m : obj) x,
            apply_at o' k rest v m = Throw x → x = err_unresolved).
  { induction rest as [|k' rest IH]; intros o' k v m x; [done|].
    simpl. destruct (m !! k) as [[| | | | |c]|]; try by intros [= <-].
    destruct (apply_at o' k' rest v c) eqn:Hc; simpl; [done|].
    intros [= <-]. by eapply IH. }
  induction ps as [|p ps IH]; intros m x; [done|].
  simpl. destruct (applyPatch p m) as [m'|y] eqn:Hp; simpl.
  - apply IH.
  - intros [= <-]. unfold applyPatch in Hp.
    destruct (p_path p); [by injection Hp as <-|]. by eapply Hat.
Qed.

(** *** What patches do to one top-level property *)

(** A patch whose path starts elsewhere leaves property [k] alone. *)
Lemma applyPatch_other_head p (m m' : obj) k :
  head (p_path p) ≠ Some k → applyPatch p m = Normal m' → m' !! k = m !! k.
Proof.
  unfold applyPatch. destruct (p_path p) as [|k' rest]; [done|].
  intros Hk. assert (k' ≠ k) as Hne by (intros ->; by apply Hk).
  destruct rest as [|k1 rest].
  - rewrite apply_at_leaf. intros [= <-]. by apply lookup_leaf_ne.
  - intros (c & c' & _ & _ & ->)%apply_at_cons_inv.
    by rewrite lookup_insert_ne.
Qed.

Lemma lookup_leaf_eq o' k v (m1 m2 : obj) :
  leaf o' k v m1 !! k = leaf o' k v m2 !! k.
Proof.
  destruct o'; simpl; by rewrite ?lookup_insert_eq, ?lookup_delete_eq.
Qed.

(** Applied to two drafts, a patch either leaves property [k] the same in
    both (its path is [k] itself), or leaves it as it was (its path starts
    elsewhere), or finds an object there and leaves an object (its path
    goes through [k]). *)
Lemma applyPatch_slot p (m1 m2 m1' m2' : obj) k :
  applyPatch p m1 = Normal m1' → applyPatch p m2 = Normal m2' →
  m1' !! k = m2' !! k ∨
  m1' !! k = m1 !! k ∨
  (∃ o o', m1 !! k = Some (VObj o) ∧ m1' !! k = Some (VObj o')).
Proof.
  intros H1 H2.
  destruct (decide (head (p_path p) = Some k)) as [Hk|Hk].
  2: { right. left. by eapply applyPatch_other_head. }
  unfold applyPatch in *. destruct (p_path p) as [|k' rest]; [done|].
  injection Hk as ->. destruct rest as [|k1 rest].
  - left. rewrite apply_at_leaf in *. injection H1 as <-. injection H2 as <-.
    apply lookup_leaf_eq.
  - right. right.
    apply apply_at_cons_inv in H1 as (c & c' & Hc & _ & ->).
    exists c, c'. by rewrite lookup_insert_eq.
Qed.

(** What a patch leaves at property [k] depends only on what it found
    there. *)
Lemma applyPatch_slot_agree p (m1 m2 m1' m2' : obj) k :
  m1 !! k = m2 !! k →
  applyPatch p m1 = Normal m1' → applyPatch p m2 = Normal m2' →
  m1' !! k = m2' !! k.
Proof.
  intros Hk H1 H2.
  destruct (decide (head (p_path p) = Some k)) as [Hh|Hh].
  2: { rewrite (applyPatch_other_head p m1 m1' k Hh H1).
       by rewrite (applyPatch_other_head p m2 m2' k Hh H2). }
  unfold applyPatch in *. destruct (p_path p) as [|k' rest]; [done|].
  injection Hh as ->. destruct rest as [|k1 rest].
  - rewrite apply_at_leaf in *. injection H1 as <-. injection H2 as <-.
    apply lookup_leaf_eq.
  - apply apply_at_cons_inv in H1 as (c1 & c1' & Hc1 & Ha1 & ->).
    apply apply_at_cons_inv in H2 as (c2 & c2' & Hc2 & Ha2 & ->).
    assert (c2 = c1) as -> by congruence.
    rewrite !lookup_insert_eq. congruence.
Qed.

Lemma applyPatches_slot_agree ps : ∀ (m1 m2 m1' m2' : obj) k,
  m1 !! k = m2 !! k →
  applyPatches ps m1 = Normal m1' → applyPatches ps m2 = Normal m2' →
  m1' !! k = m2' !! k.
Proof.
  induction ps as [|p ps IH]; intros m1 m2 m1' m2' k Hk H1 H2.
  - injection H1 as <-. by injection H2 as <-.
  - apply applyPatches_cons_inv in H1 as (a1 & Hp1 & H1).
    apply applyPatches_cons_inv in H2 as (a2 & Hp2 & H2).
    eapply (IH a1 a2); [|done|done].
    by eapply applyPatch_slot_agree.
Qed.

Lemma applyPatches_slot ps : ∀ (m1 m2 m1' m2' : obj) k,
  applyPatches ps m1 = Normal m1' → applyPatches ps m2 = Normal m2' →
  m1' !! k = m2' !! k ∨
  m1' !! k = m1 !! k ∨
  (∃ o o', m1 !! k = Some (VObj o) ∧ m1' !! k = Some (VObj o')).
Proof.
  induction ps as [|p ps IH]; intros m1 m2 m1' m2' k H1 H2.
  - injection H1 as <-. right. by left.
  - apply applyPatches_cons_inv in H1 as (a1 & Hp1 & H1).
    apply applyPatches_cons_inv in H2 as (a2 & Hp2 & H2).
    destruct (applyPatch_slot p m1 m2 a1 a2 k Hp1 Hp2)
      as [Ha|[Ha|(o & o' & Ho & Ho')]].
    + left. by eapply (applyPatches_slot_agree ps a1 a2).
    + destruct (IH a1 a2 m1' m2' k H1 H2) as [?|[Hb|(o & o' & Ho & Ho')]].
      * by left.
      * right. left. congruence.
      * right. right. exists o, o'. split; congruence.
    + destruct (IH a1 a2 m1' m2' k H1 H2) as [?|[Hb|(o1 & o2 & Ho1 & Ho2)]].
      * by left.
      * right. right. exists o, o'. split; congruence.
      * right. right. by exists o, o2.
Qed.

(** Patches that turn [s1] into [s0] and change property [k] other than
    from one object to another put [k] back as [s0] has it, whatever the
    draft they are applied to holds there. *)
Lemma patches_force_slot ps (s0 s1 : obj) (k : string) :
  applyPatches ps s1 = Normal s0 →
  s0 !! k ≠ s1 !! k →
  (∀ oa ob, ¬ (s0 !! k = Some (VObj oa) ∧ s1 !! k = Some (VObj ob))) →
  ∀ s2 s3 : obj, applyPatches ps s2 = Normal s3 → s3 !! k = s0 !! k.
Proof.
  intros Hinv Hne Hobj s2 s3 Happ.
  destruct (applyPatches_slot ps s1 s2 s0 s3 k Hinv Happ)
    as [?|[?|(o & o' & Ho & Ho')]]; [done|done|].
  by destruct (Hobj o' o).
Qed.

End patch_engine.

(* ===================================================================== *)
(** ** Facts about the builder, the runner and the derived atom           *)
(* ===================================================================== *)

(** Unfold the operations of the store monad. *)
Ltac unfold_M :=
  unfold Store.setAtomValue, produceWithPatchesM, applyPatchesM, on_draft,
    logged, call1, call2, mutate_draft, mbind, M_bind, mret, M_ret.

Section saga_runner.

(** The optimistic update, when the update stage returns and when it
    throws. *)
Lemma optimistic_update_Normal (u : update_fn) (w : world) next ctx :
  u (store w) = Normal (next, ctx) →
  optimistic_update u w
  = (Normal (next_state_of (capture u (store w)) next,
             c_inverse (capture u (store w)), ctx),
     World next (trace w ++ [ESetAtomValue; ECallUpdate (store w);
                  EApplyPatches (c_patches (capture u (store w)))])).
Proof.
  intros Hu. unfold optimistic_update. unfold_M. simpl.
  unfold produceWithPatches. rewrite Hu. simpl.
  rewrite (capture_forward u _ _ _ Hu). by rewrite <- !app_assoc.
Qed.

Lemma optimistic_update_Throw (u : update_fn) (w : world) e :
  u (store w) = Throw e →
  optimistic_update u w
  = (Throw e, World (store w) (trace w ++ [ESetAtomValue; ECallUpdate (store w)])).
Proof.
  intros Hu. unfold optimistic_update. unfold_M. simpl.
  unfold produceWithPatches. rewrite Hu. simpl. by rewrite <- !app_assoc.
Qed.

(** The synchronous part of a saga with an update stage that returns and
    an effect stage: the effect function is applied to the next state the
    engine returned and to the context the update stage returned. *)
Lemma run_stages_effect saga (u : update_fn) (e : effect_fn) w next ctx :
  update saga = Some u → effect saga = Some e →
  u (store w) = Normal (next, ctx) →
  run_stages saga w
  = match e (next_state_of (capture u (store w)) next) ctx with
    | Normal p =>
        (Normal (Some (mkPending p (postEffect saga)
                         (c_inverse (capture u (store w))) (onError saga))),
         after_update w u next ctx)
    | Throw x => (Throw x, after_update w u next ctx)
    end.
Proof.
  intros Hupd Heff Hu. unfold run_stages. rewrite Hupd, Heff.
  unfold mbind, M_bind at 1. rewrite (optimistic_update_Normal u w next ctx Hu).
  unfold_M. unfold after_update. simpl.
  rewrite <- !app_assoc. simpl.
  by destruct (e (next_state_of (capture u (store w)) next) ctx).
Qed.

(** No builder call touches the onError stage of the descriptor; only
    [update] calls touch its update stage. *)
Lemma collector_keeps_onError calls : ∀ saga saga',
  sagaCollectorFn calls saga = Normal saga' → onError saga' = onError saga.
Proof.
  induction calls as [|c calls IH]; intros saga saga' H.
  - by injection H as <-.
  - simpl in H. destruct c; simpl in H; try done; by rewrite (IH _ _ H).
Qed.

Lemma collector_keeps_update calls : ∀ saga saga',
  Forall (λ c, is_update_call c = false) calls →
  sagaCollectorFn calls saga = Normal saga' → update saga' = update saga.
Proof.
  induction calls as [|c calls IH]; intros saga saga' Hno H.
  - by injection H as <-.
  - apply Forall_cons_1 in Hno as [Hc Hno]. simpl in H.
    destruct c; simpl in H, Hc; try done; by rewrite (IH _ _ Hno H).
Qed.

(** A rejection settled: the rollback when there is no onError stage. *)
Lemma settle_rejected pd err (w2 : world) s3 :
  pd_promise pd = Rejects err →
  applyPatches (pd_inversePatches pd) (store w2) = Normal s3 →
  pd_onError pd = None →
  settle pd w2
  = (Normal (), World s3 (trace w2 ++ [ESetAtomValue;
                                       EApplyPatches (pd_inversePatches pd)])).
Proof.
  intros Hp Happ Hoe. unfold settle, on_rejected. rewrite Hp, Hoe.
  unfold_M. simpl. rewrite Happ. simpl. by rewrite <- app_assoc.
Qed.

(** Another writer's mutation committed. *)
Lemma concurrent_update_Normal f (w : world) s2 :
  f (store w) = Normal s2 →
  concurrent_update f w = (Normal (), World s2 (trace w ++ [ESetAtomValue])).
Proof.
  intros Hf. unfold concurrent_update. unfold_M. simpl. by rewrite Hf.
Qed.

(** The [.then] handler on a world: with a postEffect stage that
    returns, and with one that throws. *)
Lemma on_fulfilled_Normal pd (post : postEffect_fn) r (w2 : world) final :
  pd_runPostEffect pd = Some post → post (store w2) r = Normal final →
  on_fulfilled pd r w2
  = (Normal (), World final (trace w2 ++ [ESetAtomValue;
                                          ECallPostEffect (store w2) r])).
Proof.
  intros Hp Hpost. unfold on_fulfilled. rewrite Hp.
  unfold_M. simpl. rewrite Hpost. simpl. by rewrite <- app_assoc.
Qed.

Lemma on_fulfilled_Throw pd (post : postEffect_fn) r (w2 : world) x :
  pd_runPostEffect pd = Some post → post (store w2) r = Throw x →
  on_fulfilled pd r w2
  = (Throw x, World (store w2) (trace w2 ++ [ESetAtomValue;
                                             ECallPostEffect (store w2) r])).
Proof.
  intros Hp Hpost. unfold on_fulfilled. rewrite Hp.
  unfold_M. simpl. rewrite Hpost. simpl. by rewrite <- app_assoc.
Qed.

(** The [.catch] handler on a world: when the inverse patches apply, and
    when they do not. *)
Lemma on_rejected_Normal pd err (w2 : world) s3 :
  applyPatches (pd_inversePatches pd) (store w2) = Normal s3 →
  on_rejected pd err w2
  = match pd_onError pd with
    | None =>
        (Normal (), World s3 (trace w2 ++ [ESetAtomValue;
                                EApplyPatches (pd_inversePatches pd)]))
    | Some f =>
        let t := trace w2 ++ [ESetAtomValue;
                   EApplyPatches (pd_inversePatches pd);
                   ESetAtomValue; ECallOnError err s3] in
        match f err s3 with
        | Normal s4 => (Normal (), World s4 t)
        | Throw x => (Throw x, World s3 t)
        end
    end.
Proof.
  intros Happ. unfold on_rejected. unfold_M. simpl. rewrite Happ. simpl.
  destruct (pd_onError pd) as [f|]; simpl.
  - destruct (f err s3); simpl; by rewrite <- !app_assoc.
  - by rewrite <- !app_assoc.
Qed.

Lemma on_rejected_Throw pd err (w2 : world) x :
  applyPatches (pd_inversePatches pd) (store w2) = Throw x →
  on_rejected pd err w2
  = (Throw x, World (store w2) (trace w2 ++ [ESetAtomValue;
                                  EApplyPatches (pd_inversePatches pd)])).
Proof.
  intros Happ. unfold on_rejected. unfold_M. simpl. rewrite Happ. simpl.
  by rewrite <- !app_assoc.
Qed.

Lemma count_events_app P t1 t2 :
  count_events P (t1 ++ t2) = count_events P t1 + count_events P t2.
Proof. unfold count_events. by rewrite List.filter_app, length_app. Qed.

(** The [.catch] handler starts with the rollback, whatever the store
    holds. *)
Lemma on_rejected_trace pd error (w : world) :
  ∃ rest,
    trace (on_rejected pd error w).2
    = trace w ++ ESetAtomValue :: EApplyPatches (pd_inversePatches pd) :: rest
    ∧ count_events is_postEffect_call rest = 0.
Proof.
  destruct (applyPatches (pd_inversePatches pd) (store w)) as [s3|x] eqn:Happ.
  - rewrite (on_rejected_Normal pd error w s3 Happ).
    destruct (pd_onError pd) as [f|].
    + exists [ESetAtomValue; ECallOnError error s3].
      by destruct (f error s3).
    + by exists [].
  - rewrite (on_rejected_Throw pd error w x Happ). by exists [].
Qed.

Lemma on_rejected_no_onError pd err (w : world) :
  pd_onError pd = None →
  count_events is_onError_call (trace (on_rejected pd err w).2)
  = count_events is_onError_call (trace w).
Proof.
  intros Hoe.
  destruct (applyPatches (pd_inversePatches pd) (store w)) as [s3|x] eqn:Happ.
  - rewrite (on_rejected_Normal pd err w s3 Happ), Hoe. cbn [snd trace].
    rewrite count_events_app. cbn. lia.
  - rewrite (on_rejected_Throw pd err w x Happ). cbn [snd trace].
    rewrite count_events_app. cbn. lia.
Qed.

Lemma settle_no_onError pd (w : world) :
  pd_onError pd = None →
  count_events is_onError_call (trace (settle pd w).2)
  = count_events is_onError_call (trace w).
Proof.
  intros Hoe. unfold settle. destruct (pd_promise pd) as [r|err|]; [| |done].
  - unfold try_catch.
    destruct (pd_runPostEffect pd) as [post|] eqn:Hpost.
    + destruct (post (store w) r) as [final|x] eqn:Hp.
      * rewrite (on_fulfilled_Normal pd post r w final Hpost Hp).
        cbn [snd trace]. rewrite count_events_app. cbn. lia.
      * rewrite (on_fulfilled_Throw pd post r w x Hpost Hp).
        rewrite on_rejected_no_onError by done. cbn [trace].
        rewrite count_events_app. cbn. lia.
    + unfold on_fulfilled. by rewrite Hpost.
  - by apply on_rejected_no_onError.
Qed.

(** The three ways the synchronous part can end. *)
Lemma run_stages_cases saga (w : world) :
  (update saga = None ∧ run_stages saga w = (Normal None, w)) ∨
  (∃ u x, update saga = Some u ∧ u (store w) = Throw x ∧
     run_stages saga w
     = (Throw x, World (store w)
                   (trace w ++ [ESetAtomValue; ECallUpdate (store w)]))) ∨
  (∃ u next ctx, update saga = Some u ∧ u (store w) = Normal (next, ctx) ∧
     ((effect saga = None ∧
       run_stages saga w
       = (Normal None,
          World next (trace w ++ [ESetAtomValue; ECallUpdate (store w);
             EApplyPatches (c_patches (capture u (store w)))]))) ∨
      (∃ e, effect saga = Some e ∧
         run_stages saga w
         = match e (next_state_of (capture u (store w)) next) ctx with
           | Normal p =>
               (Normal (Some (mkPending p (postEffect saga)
                                (c_inverse (capture u (store w)))
                                (onError saga))),
                after_update w u next ctx)
           | Throw x => (Throw x, after_update w u next ctx)
           end))).
Proof.
  destruct (update saga) as [u|] eqn:Hupd.
  2: { left. split; [done|]. unfold run_stages. by rewrite Hupd. }
  right. destruct (u (store w)) as [[next ctx]|x] eqn:Hu.
  2: { left. exists u, x. repeat split; try done.
       unfold run_stages. rewrite Hupd. unfold mbind, M_bind.
       by rewrite (optimistic_update_Throw u w x Hu). }
  right. exists u, next, ctx. repeat split; try done.
  destruct (effect saga) as [e|] eqn:Heff.
  2: { left. split; [done|]. unfold run_stages. rewrite Hupd, Heff.
       unfold mbind, M_bind.
       by rewrite (optimistic_update_Normal u w next ctx Hu). }
  right. exists e. split; [done|].
  by apply (run_stages_effect saga u e w next ctx).
Qed.

Lemma run_stages_no_onError saga (s : obj) :
  count_events is_onError_call (trace (run_stages saga (World s [])).2) = 0.
Proof.
  destruct (run_stages_cases saga (World s []))
    as [[_ ->]|[(u & x & _ & _ & ->)|(u & next & ctx & _ & _ &
         [[_ ->]|(e & _ & ->)])]]; try done.
  by destruct (e _ ctx).
Qed.

Lemma run_stages_pending saga (w w' : world) pd :
  run_stages saga w = (Normal (Some pd), w') →
  ∃ u e next ctx,
    update saga = Some u ∧ effect saga = Some e ∧
    u (store w) = Normal (next, ctx) ∧
    e (next_state_of (capture u (store w)) next) ctx
    = Normal (pd_promise pd) ∧
    pd_runPostEffect pd = postEffect saga ∧
    pd_inversePatches pd = c_inverse (capture u (store w)) ∧
    pd_onError pd = onError saga ∧
    w' = after_update w u next ctx.
Proof.
  destruct (run_stages_cases saga w)
    as [[_ ->]|[(u & x & _ & _ & ->)|(u & next & ctx & Hupd & Hu &
         [[_ ->]|(e & Heff & ->)])]]; try done.
  destruct (e _ ctx) as [p|x] eqn:He; [|done].
  intros [= <- <-]. by exists u, e, next, ctx.
Qed.

(** One step of each path function of the derived atom. *)
Lemma update_at_path_cons k rest (f : obj → completion obj) (o : obj) :
  DerivedImmerAtom.update_at_path (k :: rest) f o
  = match o !! k with
    | Some (VObj c) =>
        c' ← DerivedImmerAtom.update_at_path rest f c;
        mret (<[k := VObj c']> o)
    | _ => Throw (VStr "TypeError: cannot read properties of undefined")
    end.
Proof. done. Qed.

Lemma store_path_cons2 k k' rest v (o : obj) :
  DerivedImmerAtom.store_path (k :: k' :: rest) v o
  = match o !! k with
    | Some (VObj c) =>
        <[k := VObj (DerivedImmerAtom.store_path (k' :: rest) v c)]> o
    | _ => o
    end.
Proof. done. Qed.

(** Mutating through the alias found at a path is updating at that
    path. *)
Lemma update_at_path_store_path path :
  ∀ (f : obj → completion obj) (o sub : obj),
  DerivedImmerAtom.lookup_path path (VObj o) = Some (VObj sub) →
  DerivedImmerAtom.update_at_path path f o
  = sub' ← f sub; mret (DerivedImmerAtom.store_path path (VObj sub') o).
Proof.
  induction path as [|k rest IH]; intros f o sub Hl.
  - simpl in Hl. injection Hl as ->. simpl. by destruct (f sub).
  - simpl in Hl. destruct (o !! k) as [c|] eqn:Hk; [|done]. simpl in Hl.
    destruct rest as [|k' rest'].
    + simpl in Hl. injection Hl as ->. simpl. rewrite Hk.
      by destruct (f sub).
    + destruct c as [| | | | |c]; try done.
      rewrite update_at_path_cons, Hk.
      rewrite (IH f c sub Hl). destruct (f sub) as [sub'|]; [|done].
      cbn [mbind completion_bind mret completion_ret].
      by rewrite store_path_cons2, Hk.
Qed.

End saga_runner.

(* ===================================================================== *)
(** ** The specification's claims                                         *)
(* ===================================================================== *)

(** The scenario of the specification, run on the descriptor that holds
    its onError stage: the flag is rolled back, the error is recorded and
    the unrelated change to [count] survives. *)
Example spec_scenario_descriptor :
  run_saga_descriptor Example_onError.saga
    (concurrent_update Example_spec.bump_count) (World Example_spec.s0 [])
  = (Normal (),
     World {[ "flag" := VBool false; "error" := VStr "network down";
              "count" := VNum 1 ]}
       [ESetAtomValue; ECallUpdate Example_spec.s0;
        EApplyPatches [Patch Replace ["flag"] (VBool true)];
        ECallEffect (Snapshot Example_spec.s1) (VObj ∅);
        ESetAtomValue;
        ESetAtomValue; EApplyPatches [Patch Replace ["flag"] (VBool false)];
        ESetAtomValue;
        ECallOnError (VStr "network down")
          {[ "flag" := VBool false; "error" := VNull; "count" := VNum 1 ]}]).
Proof. vm_compute. reflexivity. Qed.

(** C1 (the code departs from the claim).  The claim has the builder
    expose [onError] and the stage run exactly once when the effect
    rejects.  The [collector] of [runSaga] has no [onError] method: the
    declaration of the README, which ends in [.onError(fn)], throws a
    [TypeError] before any stage runs and leaves the store untouched; no
    sequence of builder calls yields a descriptor with an onError stage;
    and no run started through [runSaga] ever calls an onError function. *)
Theorem onError_stage_unreachable :
  run Example_onError.declaration (mret ()) (World Example_spec.s0 [])
  = (Throw (TypeError_not_a_function "collector.onError"),
     World Example_spec.s0 []) ∧
  (∀ calls,
     match sagaCollectorFn calls empty_saga with
     | Normal saga => onError saga = None
     | Throw _ => True
     end) ∧
  (∀ calls s,
     count_events is_onError_call
       (trace (run calls (mret ()) (World s [])).2) = 0).
Proof.
  split; [by vm_compute|]. split.
  - intros calls.
    destruct (sagaCollectorFn calls empty_saga) as [saga|] eqn:H; [|done].
    by rewrite (collector_keeps_onError _ _ _ H).
  - intros calls s. unfold run, runSaga, mbind, M_bind.
    destruct (sagaCollectorFn calls empty_saga) as [saga|x] eqn:Hcol; [|done].
    pose proof (collector_keeps_onError _ _ _ Hcol) as Hoe. simpl in Hoe.
    pose proof (run_stages_no_onError saga s) as H0.
    destruct (run_stages saga (World s [])) as [[[pd|]|x] w1] eqn:Hrun;
      cbn [snd] in H0; unfold mret, M_ret; cbn [snd]; try done.
    rewrite settle_no_onError; [done|].
    destruct (run_stages_pending _ _ _ _ Hrun)
      as (_ & _ & _ & _ & _ & _ & _ & _ & _ & _ & Hpd & _).
    by rewrite Hpd.
Qed.

(** C2.  Rollback locality: a saga is declared with an update stage and an
    effect stage; the update turns [s0] into [s1]; while the effect is in
    flight another writer commits a mutation [U'] turning [s1] into [s2];
    then the effect rejects.  Let [q] be patches that describe the other
    writer's change (applied to [s1] they give [s2]) and whose paths are
    disjoint from the paths of the inverse patches the engine captured for
    the saga's update.  Then the run ends normally and the store holds
    [s0] with [q] applied: the saga's change is gone, the other writer's
    change is there. *)
Theorem rollback_locality (calls : list builder_call) (saga : Saga)
    (u : update_fn) (e : effect_fn) (U' : obj → completion obj)
    (s0 s1 s2 : obj) (ctx err : value) (q : list patch) :
  sagaCollectorFn calls empty_saga = Normal saga →
  update saga = Some u → effect saga = Some e →
  u s0 = Normal (s1, ctx) →
  e (next_state_of (capture u s0) s1) ctx = Normal (Rejects err) →
  U' s1 = Normal s2 →
  applyPatches q s1 = Normal s2 →
  disjoint_patches (c_inverse (capture u s0)) q →
  ∃ s3,
    run calls (concurrent_update U') (World s0 [])
    = (Normal (),
       World s3 (trace (after_update (World s0 []) u s1 ctx)
                 ++ [ESetAtomValue]
                 ++ [ESetAtomValue;
                     EApplyPatches (c_inverse (capture u s0))])) ∧
    applyPatches q s0 = Normal s3.
Proof.
  intros Hcol Hupd Heff Hu He HU Hq Hdisj.
  destruct (applyPatches_diamond _ _ s1 s0 s2 Hdisj) as (s3 & Hq0 & Hinv).
  { by apply (capture_inverse u s0 s1 ctx). }
  { exact Hq. }
  exists s3. split; [|exact Hq0].
  unfold run, runSaga, mbind, M_bind. rewrite Hcol.
  rewrite (run_stages_effect saga u e (World s0 []) s1 ctx Hupd Heff Hu).
  cbn [store]. rewrite He.
  rewrite (concurrent_update_Normal U' (after_update (World s0 []) u s1 ctx) s2 HU).
  rewrite (settle_rejected _ err (World s2 _) s3); [|done|exact Hinv|].
  - cbn [trace pd_inversePatches]. by rewrite <- app_assoc.
  - simpl. by rewrite (collector_keeps_onError _ _ _ Hcol).
Qed.

Lemma rollback_locality_witness :
  ∃ s3,
    run Example_spec.declaration (concurrent_update Example_spec.bump_count)
      (World Example_spec.s0 [])
    = (Normal (),
       World s3
         (trace (after_update (World Example_spec.s0 []) Example_spec.set_flag
                   Example_spec.s1 (VObj ∅))
          ++ [ESetAtomValue]
          ++ [ESetAtomValue;
              EApplyPatches
                (c_inverse (capture Example_spec.set_flag Example_spec.s0))])) ∧
    applyPatches [Patch Replace ["count"] (VNum 1)] Example_spec.s0
    = Normal s3.
Proof.
  apply (rollback_locality Example_spec.declaration Example_spec.saga
           Example_spec.set_flag Example_spec.network_down
           Example_spec.bump_count Example_spec.s0 Example_spec.s1
           (<["count" := VNum 1]> Example_spec.s1) (VObj ∅)
           (VStr "network down") [Patch Replace ["count"] (VNum 1)]).
  - reflexivity.
  - reflexivity.
  - reflexivity.
  - reflexivity.
  - reflexivity.
  - reflexivity.
  - reflexivity.
  - apply (bool_decide_unpack _). vm_compute. exact I.
Defined.

(** Where the paths are not disjoint the other writer's change can be
    lost.  A saga that assigns a whole object, [draft.items = { tmp:
    "draft" }], captures the one inverse patch [replace items]: rolling it
    back puts the old object back and with it drops the property another
    writer added to [items] in the meantime.  Had the saga assigned the
    one property, [draft.items.tmp = "draft"], the inverse patch would be
    [remove items/tmp] and the other writer's property would survive. *)
Example whole_object_assignment_rollback :
  c_inverse (capture Example_postEffect_caught.add_item Example_whole_object.s0)
  = [Patch Replace ["items"] (VObj ∅)] ∧
  store (run Example_whole_object.whole
           (concurrent_update Example_whole_object.add_other)
           (World Example_whole_object.s0 [])).2
  = {[ "items" := VObj ∅ ]} ∧
  c_inverse (capture Example_whole_object.add_tmp Example_whole_object.s0)
  = [Patch Remove ["items"; "tmp"] VUndef] ∧
  store (run Example_whole_object.one_property
           (concurrent_update Example_whole_object.add_other)
           (World Example_whole_object.s0 [])).2
  = {[ "items" := VObj {[ "other" := VNum 1 ]} ]}.
Proof.
  split; [vm_compute; reflexivity|]. split; [vm_compute; reflexivity|].
  split; vm_compute; reflexivity.
Qed.

(** What the engine records of an assignment depends on the value
    assigned, not only on the states before and after: assigning a new
    object to a property that holds an equal object is a change, with a
    [replace] pair; assigning to a property the primitive it holds is
    none. *)
Example assignment_capture :
  capture (Recipes.assign "items" [] (VObj ∅) VNull) Example_whole_object.s0
  = Captured [Patch Replace ["items"] (VObj ∅)]
             [Patch Replace ["items"] (VObj ∅)] true ∧
  capture (Recipes.assign "flag" [] (VBool false) VNull) Example_spec.s0
  = Captured [] [] false ∧
  capture Example_spec.set_flag Example_spec.s0
  = Captured [Patch Replace ["flag"] (VBool true)]
             [Patch Replace ["flag"] (VBool false)] true ∧
  capture (Recipes.assign "id" [] (VNum 7) VNull) Example_spec.s0
  = Captured [Patch Add ["id"] (VNum 7)] [Patch Remove ["id"] VUndef] true.
Proof.
  split; [vm_compute; reflexivity|]. split; [vm_compute; reflexivity|].
  split; vm_compute; reflexivity.
Qed.

(** C3.  When the synchronous part of a saga leaves handlers pending, the
    inverse patches they hold are those the engine captured for the saga's
    own update stage run on the store's value at update time; and whatever
    the store has become when the effect fails, the rollback applies
    exactly these patches. *)
Theorem inverse_patches_of_own_update (saga : Saga) (w w' : world)
    (pd : pending) :
  run_stages saga w = (Normal (Some pd), w') →
  ∃ u next ctx,
    update saga = Some u ∧ u (store w) = Normal (next, ctx) ∧
    pd_inversePatches pd = c_inverse (capture u (store w)) ∧
    ∀ error w2, ∃ rest,
      trace (on_rejected pd error w2).2
      = trace w2 ++ ESetAtomValue
          :: EApplyPatches (c_inverse (capture u (store w))) :: rest.
Proof.
  intros Hrun.
  destruct (run_stages_pending _ _ _ _ Hrun)
    as (u & e & next & ctx & Hupd & _ & Hu & _ & _ & Hinv & _ & _).
  exists u, next, ctx. repeat split; try done. intros error w2.
  destruct (on_rejected_trace pd error w2) as (rest & Ht & _).
  exists rest. by rewrite Ht, Hinv.
Qed.

Lemma inverse_patches_of_own_update_witness :
  ∃ u next ctx,
    update Example_spec.saga = Some u ∧
    u (store (World Example_spec.s0 [])) = Normal (next, ctx) ∧
    pd_inversePatches Example_spec.left_pending
    = c_inverse (capture u (store (World Example_spec.s0 []))) ∧
    ∀ error w2, ∃ rest,
      trace (on_rejected Example_spec.left_pending error w2).2
      = trace w2 ++ ESetAtomValue
          :: EApplyPatches
               (c_inverse (capture u (store (World Example_spec.s0 []))))
          :: rest.
Proof.
  apply (inverse_patches_of_own_update Example_spec.saga
           (World Example_spec.s0 [])
           (run_stages Example_spec.saga (World Example_spec.s0 [])).2
           Example_spec.left_pending).
  vm_compute. reflexivity.
Defined.

(** C4 (the code departs from the claim).  The claim has the effect
    function receive the store value resulting from the update stage.
    What [runSaga] passes is the next state [produceWithPatches] returned
    for the draft of the store update, and for an update stage that
    changed nothing that is the draft itself, revoked by the time the
    effect function is called.  Here the update stage only reads
    [draft.count]; the effect function, which reads [next.count], is
    handed the revoked draft and throws the [TypeError] of a revoked
    proxy, where on the store's value it would have returned a promise.
    This is so for every update stage that only reads its draft: the
    effect function is applied to the revoked draft, and to the context
    the update stage returned. *)
Theorem effect_handed_revoked_draft :
  runSaga Example_read_only.declaration (World Example_spec.s0 [])
  = (Throw TypeError_revoked,
     World Example_spec.s0
       [ESetAtomValue; ECallUpdate Example_spec.s0; EApplyPatches [];
        ECallEffect RevokedDraft (VNum 0)]) ∧
  Example_read_only.save_count (Snapshot Example_spec.s0) (VNum 0)
  = Normal (Resolves (VNum 0)) ∧
  (∀ (context : obj → value) (e : effect_fn) (s : obj),
     run_stages (mkSaga (Some (Recipes.reading context)) (Some e) None None)
       (World s [])
     = let w1 := World s [ESetAtomValue; ECallUpdate s; EApplyPatches [];
                          ECallEffect RevokedDraft (context s)] in
       match e RevokedDraft (context s) with
       | Normal p => (Normal (Some (mkPending p None [] None)), w1)
       | Throw x => (Throw x, w1)
       end).
Proof.
  split; [vm_compute; reflexivity|]. split; [vm_compute; reflexivity|].
  intros context e s.
  rewrite (run_stages_effect _ (Recipes.reading context) e (World s []) s
             (context s)); [|done..].
  by destruct (e _ _).
Qed.

(** C5 (the code departs from the claim).  The claim has no rollback once
    the effect has resolved.  The effect of this saga resolves and its
    postEffect throws; [.then(h1).catch(h2)] hands what [h1] throws to
    [h2], which applies the inverse patches: the log ends with the
    rollback and the store is back at its value from before the update,
    not at the post-update value. *)
Theorem resolved_effect_rolled_back :
  Example_postEffect_throws.outcome.1 = Normal () ∧
  count_events is_applyPatches (trace Example_postEffect_throws.outcome.2) = 2 ∧
  last (trace Example_postEffect_throws.outcome.2)
  = Some (EApplyPatches [Patch Replace ["flag"] (VBool false)]) ∧
  store Example_postEffect_throws.outcome.2 = Example_spec.s0 ∧
  store Example_postEffect_throws.outcome.2 ≠ Example_spec.s1.
Proof.
  assert (Hst : store Example_postEffect_throws.outcome.2 = Example_spec.s0)
    by (vm_compute; reflexivity).
  split; [vm_compute; reflexivity|]. split; [vm_compute; reflexivity|].
  split; [vm_compute; reflexivity|]. split; [exact Hst|].
  rewrite Hst. intros H.
  apply (f_equal (λ m : obj, m !! "flag")) in H. vm_compute in H.
  discriminate H.
Qed.

(** The success path when postEffect does not throw: when the effect
    resolves with [r] and the postEffect stage, if there is one, returns,
    settling performs one store update that runs postEffect on the value
    the store then holds and on [r], or nothing at all when there is no
    postEffect stage; no patches are applied and the chain ends
    normally. *)
Lemma success_path_no_rollback (saga : Saga) (u : update_fn) (e : effect_fn)
    (s next final : obj) (ctx r : value) (meanwhile : M unit) (w2 : world) :
  update saga = Some u → effect saga = Some e →
  u s = Normal (next, ctx) →
  e (next_state_of (capture u s) next) ctx = Normal (Resolves r) →
  meanwhile (run_stages saga (World s [])).2 = (Normal (), w2) →
  match postEffect saga with
  | Some post => post (store w2) r = Normal final
  | None => final = store w2
  end →
  run_saga_descriptor saga meanwhile (World s [])
  = (Normal (),
     World final
       (trace w2 ++ match postEffect saga with
                    | Some _ => [ESetAtomValue; ECallPostEffect (store w2) r]
                    | None => []
                    end)).
Proof.
  intros Hupd Heff Hu He Hmean Hpost.
  unfold run_saga_descriptor, mbind, M_bind.
  rewrite (run_stages_effect saga u e (World s []) next ctx Hupd Heff Hu)
    in Hmean |- *.
  cbn [store] in Hmean |- *. rewrite He in Hmean |- *.
  cbn [snd] in Hmean. rewrite Hmean. unfold settle, try_catch. cbn [pd_promise].
  destruct (postEffect saga) as [post|] eqn:Hp.
  - by rewrite (on_fulfilled_Normal _ post r w2 final).
  - unfold on_fulfilled. cbn [pd_runPostEffect]. subst final.
    rewrite app_nil_r. by destruct w2.
Qed.

Example success_path_example :
  run_saga_descriptor Example_success.saga (mret ()) (World Example_spec.s0 [])
  = (Normal (),
     World (<["id" := VStr "id-7"]> Example_spec.s1)
       (trace (after_update (World Example_spec.s0 []) Example_spec.set_flag
                 Example_spec.s1 (VObj ∅))
        ++ [ESetAtomValue; ECallPostEffect Example_spec.s1 (VStr "id-7")])).
Proof.
  refine (success_path_no_rollback Example_success.saga Example_spec.set_flag
            Example_success.resolves_id Example_spec.s0 Example_spec.s1
            (<["id" := VStr "id-7"]> Example_spec.s1)
            (VObj ∅) (VStr "id-7") (mret ())
            (after_update (World Example_spec.s0 []) Example_spec.set_flag
               Example_spec.s1 (VObj ∅))
            _ _ _ _ _ _); reflexivity.
Qed.

(** C6.  No-op without update: a declaration that makes no [update] call,
    whatever else it calls, leaves the world as it was: no store update,
    no stage called; and [runSaga] leaves nothing pending: it returns, or
    the declaration itself threw. *)
Theorem no_update_is_noop (calls : list builder_call) (w : world) :
  Forall (λ c, is_update_call c = false) calls →
  (runSaga calls w).2 = w ∧
  ((runSaga calls w).1 = Normal None ∨ ∃ x, (runSaga calls w).1 = Throw x).
Proof.
  intros Hno. unfold runSaga.
  destruct (sagaCollectorFn calls empty_saga) as [saga|x] eqn:Hcol.
  - pose proof (collector_keeps_update _ _ _ Hno Hcol) as Hupd. simpl in Hupd.
    unfold run_stages. rewrite Hupd. split; [done|by left].
  - split; [done|]. right. by exists x.
Qed.

Lemma no_update_is_noop_witness :
  (runSaga [CallEffect Example_spec.network_down;
            CallPostEffect Example_success.store_id]
     (World Example_spec.s0 [])).2 = World Example_spec.s0 [] ∧
  ((runSaga [CallEffect Example_spec.network_down;
             CallPostEffect Example_success.store_id]
      (World Example_spec.s0 [])).1 = Normal None
   ∨ ∃ x, (runSaga [CallEffect Example_spec.network_down;
                    CallPostEffect Example_success.store_id]
             (World Example_spec.s0 [])).1 = Throw x).
Proof.
  apply (no_update_is_noop
           [CallEffect Example_spec.network_down;
            CallPostEffect Example_success.store_id]
           (World Example_spec.s0 [])).
  repeat constructor.
Defined.

(** C7 (the code departs from the claim).  The claim has an error thrown
    inside postEffect escape the runner.  Here postEffect throws a
    [TypeError]; [.then(h1).catch(h2)] hands it to the handler meant for
    a rejected effect: the chain ends normally, the error is not what it
    ends with, and the optimistic update of a saga whose effect succeeded
    has been rolled back. *)
Theorem postEffect_error_swallowed :
  Example_postEffect_caught.outcome.1 = Normal () ∧
  Example_postEffect_caught.outcome.1 ≠ Throw TypeError_cannot_set ∧
  store Example_postEffect_caught.outcome.2 = Example_postEffect_caught.s0 ∧
  last (trace Example_postEffect_caught.outcome.2)
  = Some (EApplyPatches [Patch Replace ["items"] (VObj ∅)]).
Proof.
  assert (Hout : Example_postEffect_caught.outcome.1 = Normal ())
    by (vm_compute; reflexivity).
  split; [exact Hout|]. split; [by rewrite Hout|].
  split; vm_compute; reflexivity.
Qed.

(** What the runner does with the errors of the stages.  (1) When the
    effect's promise rejects and the inverse patches apply to the value
    the store then holds, the runner applies them in one store update,
    then runs onError, if the descriptor has one and it returns, in a
    second one, and the chain ends normally.  (2) An error thrown by the
    update stage reaches the caller of [runSaga]; the store keeps its
    value.  (3) An error thrown by postEffect goes to the [.catch]
    handler, which treats it as it treats a rejection of the effect.
    (4) An error thrown by onError is what the chain ends with. *)
Lemma settle_error_paths :
  (∀ (pd : pending) (err : value) (w2 : world) (s3 : obj),
     pd_promise pd = Rejects err →
     applyPatches (pd_inversePatches pd) (store w2) = Normal s3 →
     match pd_onError pd with
     | None =>
         settle pd w2
         = (Normal (), World s3 (trace w2 ++ [ESetAtomValue;
                                   EApplyPatches (pd_inversePatches pd)]))
     | Some f =>
         ∀ s4, f err s3 = Normal s4 →
         settle pd w2
         = (Normal (),
            World s4 (trace w2 ++ [ESetAtomValue;
                        EApplyPatches (pd_inversePatches pd);
                        ESetAtomValue; ECallOnError err s3]))
     end) ∧
  (∀ (saga : Saga) (u : update_fn) (w : world) (x : value),
     update saga = Some u → u (store w) = Throw x →
     run_stages saga w
     = (Throw x, World (store w)
                   (trace w ++ [ESetAtomValue; ECallUpdate (store w)]))) ∧
  (∀ (pd : pending) (post : postEffect_fn) (r x : value) (w2 : world),
     pd_promise pd = Resolves r → pd_runPostEffect pd = Some post →
     post (store w2) r = Throw x →
     settle pd w2
     = on_rejected pd x
         (World (store w2)
            (trace w2 ++ [ESetAtomValue; ECallPostEffect (store w2) r]))) ∧
  (∀ (pd : pending) (f : onError_fn) (err x : value) (w2 : world) (s3 : obj),
     pd_promise pd = Rejects err →
     applyPatches (pd_inversePatches pd) (store w2) = Normal s3 →
     pd_onError pd = Some f → f err s3 = Throw x →
     (settle pd w2).1 = Throw x).
Proof.
  repeat split.
  - intros pd err w2 s3 Hp Happ. unfold settle. rewrite Hp.
    rewrite (on_rejected_Normal pd err w2 s3 Happ).
    destruct (pd_onError pd) as [f|]; [|done]. intros s4 Hf. simpl.
    by rewrite Hf.
  - intros saga u w x Hupd Hu. unfold run_stages. rewrite Hupd.
    unfold mbind, M_bind. by rewrite (optimistic_update_Throw u w x Hu).
  - intros pd post r x w2 Hp Hpost Hthrow. unfold settle, try_catch.
    rewrite Hp. by rewrite (on_fulfilled_Throw pd post r w2 x).
  - intros pd f err x w2 s3 Hp Happ Hoe Hf. unfold settle. rewrite Hp.
    rewrite (on_rejected_Normal pd err w2 s3 Happ), Hoe. simpl.
    by rewrite Hf.
Qed.

Example settle_error_paths_examples :
  settle Example_onError.left_pending (World Example_spec.s1 [])
  = (Normal (),
     World (<["error" := VStr "network down"]> Example_spec.s0)
       ([] ++ [ESetAtomValue;
               EApplyPatches [Patch Replace ["flag"] (VBool false)];
               ESetAtomValue;
               ECallOnError (VStr "network down") Example_spec.s0])) ∧
  run_stages Example_update_throws.saga (World Example_spec.s0 [])
  = (Throw (VStr "update failed"),
     World Example_spec.s0 ([] ++ [ESetAtomValue; ECallUpdate Example_spec.s0])) ∧
  settle Example_postEffect_throws.left_pending (World Example_spec.s1 [])
  = on_rejected Example_postEffect_throws.left_pending (VStr "boom")
      (World Example_spec.s1
         ([] ++ [ESetAtomValue;
                 ECallPostEffect Example_spec.s1 (VStr "id-7")])) ∧
  (settle Example_onError.left_pending_failing (World Example_spec.s1 [])).1
  = Throw (VStr "onError failed").
Proof.
  destruct settle_error_paths as (Hrej & Hupd & Hpost & Hoe).
  split; [|split; [|split]].
  - refine (Hrej Example_onError.left_pending (VStr "network down")
              (World Example_spec.s1 []) Example_spec.s0 _ _
              (<["error" := VStr "network down"]> Example_spec.s0) _).
    + reflexivity.
    + vm_compute. reflexivity.
    + reflexivity.
  - refine (Hupd Example_update_throws.saga Example_update_throws.bad_update
              (World Example_spec.s0 []) (VStr "update failed") _ _);
      reflexivity.
  - refine (Hpost Example_postEffect_throws.left_pending
              Example_postEffect_throws.boom (VStr "id-7") (VStr "boom")
              (World Example_spec.s1 []) _ _ _); reflexivity.
  - refine (Hoe Example_onError.left_pending_failing Example_onError.failing
              (VStr "network down") (VStr "onError failed")
              (World Example_spec.s1 []) Example_spec.s0 _ _ _ _).
    + reflexivity.
    + vm_compute. reflexivity.
    + reflexivity.
    + reflexivity.
Qed.

(** C8.  Lens write pass-through: when the projection, run on the parent
    draft, returns the object found at [path], writing through the derived
    atom is one update of the parent store, the very update one would
    write by hand against the parent and address at [path]; the parent
    then holds its old value with the mutated sub-object at [path]. *)
Theorem lens_write_pass_through (getDerivedValue : DerivedImmerAtom.projector)
    (update : DerivedImmerAtom.mutator) (path : list string) (sub : obj)
    (w : world) :
  getDerivedValue (store w) = Normal (DerivedImmerAtom.PDraft path) →
  DerivedImmerAtom.lookup_path path (VObj (store w)) = Some (VObj sub) →
  let lens := DerivedImmerAtom.createDerivedImmerAtom getDerivedValue in
  DerivedImmerAtom.atom_write lens update w
  = Store.setAtomValue
      (mutate_draft
         (DerivedImmerAtom.update_at_path path
            (DerivedImmerAtom.on_object update))) w ∧
  count_events is_setAtomValue
    (trace (DerivedImmerAtom.atom_write lens update w).2)
  = S (count_events is_setAtomValue (trace w)) ∧
  (∀ sub', DerivedImmerAtom.on_object update sub = Normal sub' →
     store (DerivedImmerAtom.atom_write lens update w).2
     = DerivedImmerAtom.store_path path (VObj sub') (store w)).
Proof.
  intros Hproj Hlook lens. subst lens.
  cbn [DerivedImmerAtom.createDerivedImmerAtom DerivedImmerAtom.atom_write].
  assert (DerivedImmerAtom.write getDerivedValue update w
          = match DerivedImmerAtom.on_object update sub with
            | Normal sub' =>
                (Normal (),
                 World (DerivedImmerAtom.store_path path (VObj sub') (store w))
                   (trace w ++ [ESetAtomValue]))
            | Throw x => (Throw x, World (store w) (trace w ++ [ESetAtomValue]))
            end) as Hw.
  { unfold DerivedImmerAtom.write, Store.setAtomValue, mutate_draft.
    cbn [store trace]. rewrite Hproj. cbn. rewrite Hlook.
    by destruct (DerivedImmerAtom.on_object update sub). }
  repeat split.
  - rewrite Hw. unfold Store.setAtomValue, mutate_draft. cbn [store trace].
    rewrite (update_at_path_store_path path _ _ sub Hlook).
    by destruct (DerivedImmerAtom.on_object update sub).
  - rewrite Hw. destruct (DerivedImmerAtom.on_object update sub);
      cbn [snd trace]; rewrite count_events_app; cbn; lia.
  - intros sub' Hsub. by rewrite Hw, Hsub.
Qed.

Lemma lens_write_pass_through_witness :
  let lens :=
    DerivedImmerAtom.createDerivedImmerAtom Example_lens.anotherObject in
  DerivedImmerAtom.atom_write lens Example_lens.set_name
    (World Example_lens.parent [])
  = Store.setAtomValue
      (mutate_draft
         (DerivedImmerAtom.update_at_path ["anotherObject"]
            (DerivedImmerAtom.on_object Example_lens.set_name)))
      (World Example_lens.parent []) ∧
  count_events is_setAtomValue
    (trace (DerivedImmerAtom.atom_write lens Example_lens.set_name
              (World Example_lens.parent [])).2)
  = S (count_events is_setAtomValue []) ∧
  (∀ sub',
     DerivedImmerAtom.on_object Example_lens.set_name
       {[ "nestedNumber" := VNum 1 ]} = Normal sub' →
     store (DerivedImmerAtom.atom_write lens Example_lens.set_name
              (World Example_lens.parent [])).2
     = DerivedImmerAtom.store_path ["anotherObject"] (VObj sub')
         Example_lens.parent).
Proof.
  refine (lens_write_pass_through Example_lens.anotherObject
            Example_lens.set_name ["anotherObject"]
            {[ "nestedNumber" := VNum 1 ]} (World Example_lens.parent []) _ _).
  - reflexivity.
  - vm_compute. reflexivity.
Defined.

(** The stages a run of calls leaves in a descriptor: for each stage the
    function of its last call, or what the descriptor held before. *)
Lemma sagaCollectorFn_last_call calls : ∀ saga saga',
  sagaCollectorFn calls saga = Normal saga' →
  update saga' = from_option Some (update saga) (last_call update_of calls) ∧
  effect saga' = from_option Some (effect saga) (last_call effect_of calls) ∧
  postEffect saga'
  = from_option Some (postEffect saga) (last_call postEffect_of calls).
Proof.
  induction calls as [|c calls IH]; intros saga saga' H.
  - by injection H as <-.
  - simpl in H. destruct c as [f|f|f|f]; simpl in H; try done;
      destruct (IH _ _ H) as (Hu & He & Hp); simpl in Hu, He, Hp;
      cbn [last_call update_of effect_of postEffect_of];
      rewrite Hu, He, Hp;
      by destruct (last_call update_of calls), (last_call effect_of calls),
                  (last_call postEffect_of calls).
Qed.

(** C9.  Builder overwrite semantics: all the calls a declaration makes
    land in the one descriptor, and for each of [update], [effect] and
    [postEffect] the descriptor holds exactly the function passed to the
    last call of that method, nothing of the earlier calls (and no function
    when the method was never called). *)
Theorem builder_overwrites (calls : list builder_call) (saga : Saga) :
  sagaCollectorFn calls empty_saga = Normal saga →
  update saga = last_call update_of calls ∧
  effect saga = last_call effect_of calls ∧
  postEffect saga = last_call postEffect_of calls.
Proof.
  intros H. destruct (sagaCollectorFn_last_call _ _ _ H) as (Hu & He & Hp).
  simpl in Hu, He, Hp. rewrite Hu, He, Hp.
  by destruct (last_call update_of calls), (last_call effect_of calls),
              (last_call postEffect_of calls).
Qed.

Lemma builder_overwrites_witness :
  update Example_success.saga
  = last_call update_of
      [CallUpdate Example_update_throws.bad_update;
       CallEffect Example_spec.network_down;
       CallUpdate Example_spec.set_flag;
       CallPostEffect Example_postEffect_throws.boom;
       CallEffect Example_success.resolves_id;
       CallPostEffect Example_success.store_id] ∧
  effect Example_success.saga
  = last_call effect_of
      [CallUpdate Example_update_throws.bad_update;
       CallEffect Example_spec.network_down;
       CallUpdate Example_spec.set_flag;
       CallPostEffect Example_postEffect_throws.boom;
       CallEffect Example_success.resolves_id;
       CallPostEffect Example_success.store_id] ∧
  postEffect Example_success.saga
  = last_call postEffect_of
      [CallUpdate Example_update_throws.bad_update;
       CallEffect Example_spec.network_down;
       CallUpdate Example_spec.set_flag;
       CallPostEffect Example_postEffect_throws.boom;
       CallEffect Example_success.resolves_id;
       CallPostEffect Example_success.store_id].
Proof.
  apply (builder_overwrites
           [CallUpdate Example_update_throws.bad_update;
            CallEffect Example_spec.network_down;
            CallUpdate Example_spec.set_flag;
            CallPostEffect Example_postEffect_throws.boom;
            CallEffect Example_success.resolves_id;
            CallPostEffect Example_success.store_id]
           Example_success.saga).
  reflexivity.
Defined.

(** A second call of a stage method leaves the descriptor as if only the
    second call had been made. *)
Lemma second_call_replaces :
  (∀ saga f g,
     sagaCollectorFn [CallUpdate f; CallUpdate g] saga
     = sagaCollectorFn [CallUpdate g] saga) ∧
  (∀ saga f g,
     sagaCollectorFn [CallEffect f; CallEffect g] saga
     = sagaCollectorFn [CallEffect g] saga) ∧
  (∀ saga f g,
     sagaCollectorFn [CallPostEffect f; CallPostEffect g] saga
     = sagaCollectorFn [CallPostEffect g] saga).
Proof. repeat split. Qed.

(** C10.  The effect of [useSetInitialAtomValueFromQuery] writes
    [queryData] into the atom exactly when [isLoading] is false and
    [queryData] is truthy, and otherwise leaves the atom alone;
    [undefined], [null], [false], [0] and the empty string are falsy; and
    over any sequence of renders whose [queryData] is falsy every time,
    loading or not, and however the dependencies compare, the atom is
    never written and keeps its value. *)
Theorem initial_value_only_when_truthy :
  (∀ q l a,
     Query.useSetInitialAtomValueFromQuery_effect q l a
     = if bool_decide (l = false ∧ truthy q = true)
       then Query.AtomState q (Query.writes a ++ [q]) else a) ∧
  (truthy VUndef = false ∧ truthy VNull = false ∧ truthy (VBool false) = false ∧
   truthy (VNum 0) = false ∧ truthy (VStr EmptyString) = false) ∧
  (∀ same rs a,
     Forall (λ r, truthy (Query.queryData r) = false) rs →
     Query.useSetInitialAtomValueFromQuery same rs a = a).
Proof.
  split; [|split; [done|]].
  - intros q l a. unfold Query.useSetInitialAtomValueFromQuery_effect.
    case_bool_decide as Hd.
    + destruct Hd as [-> ->]. done.
    + destruct l, (truthy q); try done. by destruct Hd.
  - assert (Heff : ∀ r a, truthy (Query.queryData r) = false →
      Query.useSetInitialAtomValueFromQuery_effect (Query.queryData r)
        (Query.isLoading r) a = a).
    { intros r a Hr. unfold Query.useSetInitialAtomValueFromQuery_effect.
      by rewrite Hr, andb_false_r. }
    assert (Hre : ∀ same rs prev a,
      Forall (λ r, truthy (Query.queryData r) = false) rs →
      Query.rerenders same prev rs a = a).
    { intros same. induction rs as [|r rs IH]; intros prev a Hrs; [done|].
      apply Forall_cons_1 in Hrs as [Hr Hrs]. simpl.
      rewrite Heff by done. destruct (same r prev); by apply IH. }
    intros same [|r rs] a Hrs; [done|].
    apply Forall_cons_1 in Hrs as [Hr Hrs]. simpl.
    rewrite Heff by done. by apply Hre.
Qed.

Lemma initial_value_only_when_truthy_witness :
  Query.useSetInitialAtomValueFromQuery Query.same_props
    [Query.Props VUndef true; Query.Props VUndef false;
     Query.Props (VNum 0) false; Query.Props (VStr EmptyString) false;
     Query.Props VNull false]
    (Query.AtomState (VObj ∅) [])
  = Query.AtomState (VObj ∅) [].
Proof.
  apply (proj2 (proj2 initial_value_only_when_truthy)).
  repeat constructor.
Defined.

(* ===================================================================== *)
(** ** Further properties of the code                                     *)
(* ===================================================================== *)

Section query_renders.
Import Query QueryRenders.

Lemma effect_ready r a :
  ready r = true →
  useSetInitialAtomValueFromQuery_effect (queryData r) (isLoading r) a
  = AtomState (queryData r) (writes a ++ [queryData r]).
Proof.
  unfold ready, useSetInitialAtomValueFromQuery_effect. by intros ->.
Qed.

Lemma rerenders_same same r n a :
  same r r = true → rerenders same r (replicate n r) a = a.
Proof.
  intros Hsame. induction n as [|n IH]; [done|]. cbn [replicate rerenders].
  by rewrite Hsame.
Qed.

Lemma rerenders_all_changed same : ∀ rs prev a,
  Forall (λ r, ready r = true) rs → all_changed same prev rs = true →
  rerenders same prev rs a
  = AtomState (default (current a) (queryData <$> last rs))
      (writes a ++ (queryData <$> rs)).
Proof.
  induction rs as [|r rs IH]; intros prev a Hready Hch.
  - simpl. rewrite app_nil_r. by destruct a.
  - apply Forall_cons_1 in Hready as [Hr Hready].
    simpl in Hch. apply andb_true_iff in Hch as [Hne Hch].
    apply negb_true_iff in Hne. simpl. rewrite Hne, (effect_ready r a Hr).
    rewrite (IH r _ Hready Hch). cbn [current writes].
    rewrite <- app_assoc. f_equal.
    rewrite last_cons. by destruct (last rs).
Qed.

Lemma rerenders_not_ready same : ∀ rs prev a,
  Forall (λ r, ready r = false) rs → rerenders same prev rs a = a.
Proof.
  induction rs as [|r rs IH]; intros prev a Hrs; [done|].
  apply Forall_cons_1 in Hrs as [Hr Hrs]. simpl.
  unfold useSetInitialAtomValueFromQuery_effect. unfold ready in Hr.
  rewrite Hr. destruct (same r prev); by apply IH.
Qed.

Lemma rerenders_app same : ∀ rs1 rs2 prev a,
  rerenders same prev (rs1 ++ rs2) a
  = rerenders same (default prev (last rs1)) rs2 (rerenders same prev rs1 a).
Proof.
  induction rs1 as [|r rs1 IH]; intros rs2 prev a; [done|].
  cbn [app rerenders]. rewrite IH. rewrite last_cons.
  by destruct (last rs1).
Qed.

End query_renders.

(** X1.  Re-rendering with unchanged props does not run the effect again:
    however many times the component re-renders with the props of its
    first render (props the dependency comparison finds the same), the
    atom is as the first render's effect left it. *)
Theorem rerender_with_same_props_writes_once
    (same : Query.props → Query.props → bool) (r : Query.props) (n : nat)
    (a : Query.atom_state) :
  same r r = true →
  Query.useSetInitialAtomValueFromQuery same (r :: replicate n r) a
  = Query.useSetInitialAtomValueFromQuery_effect
      (Query.queryData r) (Query.isLoading r) a.
Proof. intros Hsame. simpl. by apply rerenders_same. Qed.

Lemma rerender_with_same_props_writes_once_witness :
  Query.useSetInitialAtomValueFromQuery Query.same_props
    (Query.Props (VStr "docs") false
     :: replicate 3 (Query.Props (VStr "docs") false))
    (Query.AtomState (VObj ∅) [])
  = Query.useSetInitialAtomValueFromQuery_effect
      (Query.queryData (Query.Props (VStr "docs") false))
      (Query.isLoading (Query.Props (VStr "docs") false))
      (Query.AtomState (VObj ∅) []).
Proof.
  apply (rerender_with_same_props_writes_once Query.same_props
           (Query.Props (VStr "docs") false) 3 (Query.AtomState (VObj ∅) [])).
  vm_compute. reflexivity.
Defined.

(** X2.  The hook does not only seed the atom: on every render whose
    dependencies changed and whose data is loaded and truthy the atom is
    written again, so after such renders it holds the data of the last
    one, whatever it held before, and it was written once per render. *)
Theorem every_change_overwrites_atom (same : Query.props → Query.props → bool)
    (r : Query.props) (rs : list Query.props) (a : Query.atom_state) :
  Forall (λ r, QueryRenders.ready r = true) (r :: rs) →
  QueryRenders.all_changed same r rs = true →
  Query.useSetInitialAtomValueFromQuery same (r :: rs) a
  = Query.AtomState (Query.queryData (default r (last rs)))
      (Query.writes a ++ (Query.queryData <$> r :: rs)).
Proof.
  intros Hready Hch. apply Forall_cons_1 in Hready as [Hr Hready].
  simpl. rewrite (effect_ready r a Hr).
  rewrite (rerenders_all_changed same rs r _ Hready Hch).
  cbn [Query.current Query.writes]. rewrite <- app_assoc. f_equal.
  by destruct (last rs).
Qed.

Lemma every_change_overwrites_atom_witness :
  Query.useSetInitialAtomValueFromQuery Query.same_props
    [Query.Props (VNum 1) false; Query.Props (VNum 2) false;
     Query.Props (VNum 3) false]
    (Query.AtomState (VStr "edited") [])
  = Query.AtomState
      (Query.queryData
         (default (Query.Props (VNum 1) false)
            (last [Query.Props (VNum 2) false; Query.Props (VNum 3) false])))
      ([] ++ (Query.queryData <$>
               [Query.Props (VNum 1) false; Query.Props (VNum 2) false;
                Query.Props (VNum 3) false])).
Proof.
  apply (every_change_overwrites_atom Query.same_props
           (Query.Props (VNum 1) false)
           [Query.Props (VNum 2) false; Query.Props (VNum 3) false]
           (Query.AtomState (VStr "edited") [])).
  - repeat constructor.
  - reflexivity.
Defined.

(** X3.  As long as every render is still loading or has falsy data,
    the hook leaves the atom alone: data that is already there while
    [isLoading] is true is not written. *)
Theorem not_ready_renders_never_write (same : Query.props → Query.props → bool)
    (rs : list Query.props) (a : Query.atom_state) :
  Forall (λ r, QueryRenders.ready r = false) rs →
  Query.useSetInitialAtomValueFromQuery same rs a = a.
Proof.
  intros Hrs. destruct rs as [|r rs]; [done|].
  apply Forall_cons_1 in Hrs as [Hr Hrs]. simpl.
  rewrite (rerenders_not_ready same rs r _ Hrs).
  unfold Query.useSetInitialAtomValueFromQuery_effect.
  unfold QueryRenders.ready in Hr. by rewrite Hr.
Qed.

Lemma not_ready_renders_never_write_witness :
  Query.useSetInitialAtomValueFromQuery Query.same_props
    [Query.Props VUndef true; Query.Props (VNum 5) true;
     Query.Props (VNum 0) false]
    (Query.AtomState (VObj ∅) [])
  = Query.AtomState (VObj ∅) [].
Proof.
  apply (not_ready_renders_never_write Query.same_props
           [Query.Props VUndef true; Query.Props (VNum 5) true;
            Query.Props (VNum 0) false]
           (Query.AtomState (VObj ∅) [])).
  repeat constructor.
Defined.

(** X4.  Seeding: after any number of renders that are loading or have
    falsy data, the first render with loaded, truthy data (its
    dependencies differing from those of the render before) writes that
    data into the atom, once. *)
Theorem first_ready_render_seeds_atom (same : Query.props → Query.props → bool)
    (waiting : list Query.props) (r : Query.props) (a : Query.atom_state) :
  Forall (λ r, QueryRenders.ready r = false) waiting →
  QueryRenders.ready r = true →
  match last waiting with Some p => same r p = false | None => True end →
  Query.useSetInitialAtomValueFromQuery same (waiting ++ [r]) a
  = Query.AtomState (Query.queryData r) (Query.writes a ++ [Query.queryData r]).
Proof.
  intros Hw Hr Hch. destruct waiting as [|p ps].
  - simpl. by apply effect_ready.
  - apply Forall_cons_1 in Hw as [Hp Hw].
    cbn [app Query.useSetInitialAtomValueFromQuery].
    rewrite rerenders_app, (rerenders_not_ready same ps p _ Hw).
    assert (Query.useSetInitialAtomValueFromQuery_effect
              (Query.queryData p) (Query.isLoading p) a = a) as ->.
    { unfold Query.useSetInitialAtomValueFromQuery_effect.
      unfold QueryRenders.ready in Hp. by rewrite Hp. }
    rewrite last_cons in Hch. cbn [Query.rerenders].
    destruct (last ps) as [p'|]; simpl; rewrite Hch; by apply effect_ready.
Qed.

Lemma first_ready_render_seeds_atom_witness :
  Query.useSetInitialAtomValueFromQuery Query.same_props
    ([Query.Props VUndef true; Query.Props VUndef true]
     ++ [Query.Props (VStr "docs") false])
    (Query.AtomState (VObj ∅) [])
  = Query.AtomState (Query.queryData (Query.Props (VStr "docs") false))
      (Query.writes (Query.AtomState (VObj ∅) [])
       ++ [Query.queryData (Query.Props (VStr "docs") false)]).
Proof.
  apply (first_ready_render_seeds_atom Query.same_props
           [Query.Props VUndef true; Query.Props VUndef true]
           (Query.Props (VStr "docs") false) (Query.AtomState (VObj ∅) [])).
  - repeat constructor.
  - reflexivity.
  - reflexivity.
Defined.

Section derived_atom.
Import DerivedImmerAtom.

(** What [write] does, by what the projection returns on the draft. *)
Lemma write_sub_draft (g : projector) (u : mutator) path (sub : obj)
    (w : world) :
  g (store w) = Normal (PDraft path) →
  lookup_path path (VObj (store w)) = Some (VObj sub) →
  write g u w
  = match on_object u sub with
    | Normal sub' =>
        (Normal (), World (store_path path (VObj sub') (store w))
                      (trace w ++ [ESetAtomValue]))
    | Throw x => (Throw x, World (store w) (trace w ++ [ESetAtomValue]))
    end.
Proof.
  intros Hg Hl. unfold write. unfold_M. cbn [store trace].
  rewrite Hg. cbn. rewrite Hl. by destruct (on_object u sub).
Qed.

Lemma update_subObject_no_draft (pr : projection) (u : mutator) (draft : obj) :
  (∀ path sub, pr = PDraft path →
     lookup_path path (VObj draft) ≠ Some (VObj sub)) →
  ∀ draft', update_subObject pr u draft = Normal draft' → draft' = draft.
Proof.
  intros Hno draft'. unfold update_subObject. destruct pr as [path|v].
  - destruct (lookup_path path (VObj draft)) as [[| | | | |sub]|] eqn:Hl.
    6: by destruct (Hno path sub).
    all: destruct (on_other u _); simpl; by intros [= <-].
  - destruct (on_other u _); simpl; by intros [= <-].
Qed.

(** Reading back the path that was written. *)
Lemma lookup_store_path path : ∀ (o sub sub' : obj),
  lookup_path path (VObj o) = Some (VObj sub) →
  lookup_path path (VObj (store_path path (VObj sub') o)) = Some (VObj sub').
Proof.
  induction path as [|k rest IH]; intros o sub sub' Hl; [done|].
  cbn [lookup_path] in Hl. destruct (o !! k) as [c|] eqn:Hk; [|done].
  simpl in Hl. destruct rest as [|k' rest'].
  - cbn [store_path lookup_path]. by rewrite lookup_insert_eq.
  - destruct c as [| | | | |c]; try done.
    rewrite store_path_cons2, Hk. cbn [lookup_path].
    rewrite lookup_insert_eq. simpl. by apply (IH c sub).
Qed.

(** Writing at a path leaves every disjoint path as it was. *)
Lemma lookup_store_path_disjoint path : ∀ q v (o sub : obj),
  disjoint_paths path q →
  lookup_path path (VObj o) = Some (VObj sub) →
  lookup_path q (VObj (store_path path v o)) = lookup_path q (VObj o).
Proof.
  induction path as [|k rest IH]; intros q v o sub [Hpq Hqp] Hl.
  - destruct Hpq. apply prefix_nil.
  - destruct q as [|k' q']; [destruct Hqp; apply prefix_nil|].
    cbn [lookup_path] in Hl. destruct (o !! k) as [c|] eqn:Hk; [|done].
    simpl in Hl. destruct rest as [|k1 rest'].
    + assert (k ≠ k') as Hne.
      { intros ->. apply Hpq, prefix_cons, prefix_nil. }
      cbn [store_path lookup_path]. by rewrite lookup_insert_ne.
    + destruct c as [| | | | |c]; try done.
      rewrite store_path_cons2, Hk. cbn [lookup_path].
      destruct (decide (k = k')) as [<-|Hne].
      * rewrite lookup_insert_eq, Hk. simpl. apply (IH q' v c sub); [|done].
        split; intros ?; [apply Hpq|apply Hqp]; by apply prefix_cons.
      * by rewrite lookup_insert_ne.
Qed.

End derived_atom.

(** X5.  Read after write through the derived atom: when the projection
    returns the object at [path] before and after the write and the
    mutator returns, reading the derived atom gives the object the mutator
    left behind. *)
Theorem lens_read_after_write (getDerivedValue : DerivedImmerAtom.projector)
    (update : DerivedImmerAtom.mutator) (path : list string) (sub sub' : obj)
    (w : world) :
  let lens := DerivedImmerAtom.createDerivedImmerAtom getDerivedValue in
  getDerivedValue (store w) = Normal (DerivedImmerAtom.PDraft path) →
  DerivedImmerAtom.lookup_path path (VObj (store w)) = Some (VObj sub) →
  DerivedImmerAtom.on_object update sub = Normal sub' →
  getDerivedValue (store (DerivedImmerAtom.atom_write lens update w).2)
  = Normal (DerivedImmerAtom.PDraft path) →
  DerivedImmerAtom.atom_read lens
    (store (DerivedImmerAtom.atom_write lens update w).2)
  = Normal (VObj sub').
Proof.
  intros lens Hg Hl Hu. subst lens.
  cbn [DerivedImmerAtom.createDerivedImmerAtom DerivedImmerAtom.atom_write
       DerivedImmerAtom.atom_read].
  rewrite (write_sub_draft _ _ path sub w Hg Hl), Hu. cbn [snd store].
  intros Hg'. unfold DerivedImmerAtom.read. rewrite Hg'. simpl.
  by rewrite (lookup_store_path path _ sub sub' Hl).
Qed.

Lemma lens_read_after_write_witness :
  let lens :=
    DerivedImmerAtom.createDerivedImmerAtom Example_lens.anotherObject in
  DerivedImmerAtom.atom_read lens
    (store (DerivedImmerAtom.atom_write lens Example_lens.set_name
              (World Example_lens.parent [])).2)
  = Normal (VObj (<["name" := VStr "n"]> {[ "nestedNumber" := VNum 1 ]})).
Proof.
  refine (lens_read_after_write Example_lens.anotherObject
            Example_lens.set_name ["anotherObject"]
            {[ "nestedNumber" := VNum 1 ]}
            (<["name" := VStr "n"]> {[ "nestedNumber" := VNum 1 ]})
            (World Example_lens.parent []) _ _ _ _).
  - reflexivity.
  - vm_compute. reflexivity.
  - reflexivity.
  - reflexivity.
Defined.

(** X6.  A write through the derived atom stays inside the projected
    object: whatever the mutator does, and whether it returns or throws,
    every location of the parent at a path disjoint from the projected
    path reads as before. *)
Theorem lens_write_frame (getDerivedValue : DerivedImmerAtom.projector)
    (update : DerivedImmerAtom.mutator) (path q : list string) (sub : obj)
    (w : world) :
  getDerivedValue (store w) = Normal (DerivedImmerAtom.PDraft path) →
  DerivedImmerAtom.lookup_path path (VObj (store w)) = Some (VObj sub) →
  disjoint_paths path q →
  DerivedImmerAtom.lookup_path q
    (VObj (store (DerivedImmerAtom.write getDerivedValue update w).2))
  = DerivedImmerAtom.lookup_path q (VObj (store w)).
Proof.
  intros Hg Hl Hd. rewrite (write_sub_draft _ _ path sub w Hg Hl).
  destruct (DerivedImmerAtom.on_object update sub) as [sub'|x]; [|done].
  cbn [snd store]. by apply (lookup_store_path_disjoint path q _ _ sub).
Qed.

Lemma lens_write_frame_witness :
  DerivedImmerAtom.lookup_path ["title"]
    (VObj (store (DerivedImmerAtom.write Example_lens.anotherObject
                    Example_lens.set_name (World Example_lens.parent [])).2))
  = DerivedImmerAtom.lookup_path ["title"]
      (VObj (store (World Example_lens.parent []))).
Proof.
  refine (lens_write_frame Example_lens.anotherObject Example_lens.set_name
            ["anotherObject"] ["title"] {[ "nestedNumber" := VNum 1 ]}
            (World Example_lens.parent []) _ _ _).
  - reflexivity.
  - vm_compute. reflexivity.
  - apply (bool_decide_unpack _). vm_compute. exact I.
Defined.

(** X7.  When the projection does not return an object of the parent
    draft (it throws, or returns [undefined], a primitive, or a path of
    the parent that holds no object), a write through the derived atom
    still performs one store update, and the parent keeps its value. *)
Theorem lens_write_without_target (getDerivedValue : DerivedImmerAtom.projector)
    (update : DerivedImmerAtom.mutator) (w : world) :
  (∀ path sub,
     getDerivedValue (store w) = Normal (DerivedImmerAtom.PDraft path) →
     DerivedImmerAtom.lookup_path path (VObj (store w)) ≠ Some (VObj sub)) →
  (DerivedImmerAtom.write getDerivedValue update w).2
  = World (store w) (trace w ++ [ESetAtomValue]).
Proof.
  intros Hno. unfold DerivedImmerAtom.write. unfold_M. cbn [store trace].
  destruct (getDerivedValue (store w)) as [pr|x] eqn:Hg; [|done]. cbn.
  destruct (DerivedImmerAtom.update_subObject pr update (store w))
    as [draft'|x] eqn:Hu; [|done].
  cbn. f_equal.
  apply (update_subObject_no_draft pr update (store w)); [|done].
  intros path sub ->. by apply Hno.
Qed.

Lemma lens_write_without_target_witness :
  (DerivedImmerAtom.write Example_lens_missing.not_found Example_lens.set_name
     (World Example_lens.parent [])).2
  = World (store (World Example_lens.parent []))
      (trace (World Example_lens.parent []) ++ [ESetAtomValue]) ∧
  (DerivedImmerAtom.write Example_lens_missing.title Example_lens_missing.touch
     (World Example_lens.parent [])).2
  = World (store (World Example_lens.parent []))
      (trace (World Example_lens.parent []) ++ [ESetAtomValue]).
Proof.
  split.
  - apply (lens_write_without_target Example_lens_missing.not_found
             Example_lens.set_name (World Example_lens.parent [])).
    intros path sub H. discriminate H.
  - apply (lens_write_without_target Example_lens_missing.title
             Example_lens_missing.touch (World Example_lens.parent [])).
    intros path sub H. injection H as <-. vm_compute. discriminate.
Defined.

Section builder_calls.
Import BuilderCalls.

Lemma sagaCollectorFn_app calls1 : ∀ calls2 saga,
  sagaCollectorFn (calls1 ++ calls2) saga
  = sagaCollectorFn calls1 saga ≫= sagaCollectorFn calls2.
Proof.
  induction calls1 as [|c calls1 IH]; intros calls2 saga; [done|].
  simpl. destruct (collector c saga) as [saga'|x]; simpl; [apply IH|done].
Qed.

Lemma sagaCollectorFn_onError calls f : ∀ saga,
  CallOnError f ∈ calls →
  sagaCollectorFn calls saga
  = Throw (TypeError_not_a_function "collector.onError").
Proof.
  induction calls as [|c calls IH]; intros saga Hin.
  - by apply elem_of_nil in Hin.
  - apply elem_of_cons in Hin as [<-|Hin]; [done|].
    simpl. destruct c; simpl; try done; by apply IH.
Qed.

End builder_calls.

(** X8.  A declaration that calls [onError], wherever in the chain,
    makes [runSaga] throw the [TypeError] before any stage runs: no
    optimistic update is made, even when [update] was declared first, and
    nothing is left pending. *)
Theorem declaration_with_onError_runs_nothing (calls : list builder_call)
    (f : onError_fn) (w : world) :
  CallOnError f ∈ calls →
  runSaga calls w = (Throw (TypeError_not_a_function "collector.onError"), w).
Proof.
  intros Hin. unfold runSaga.
  by rewrite (sagaCollectorFn_onError calls f empty_saga Hin).
Qed.

Lemma declaration_with_onError_runs_nothing_witness :
  runSaga Example_onError.declaration (World Example_spec.s0 [])
  = (Throw (TypeError_not_a_function "collector.onError"),
     World Example_spec.s0 []).
Proof.
  apply (declaration_with_onError_runs_nothing Example_onError.declaration
           Example_onError.record_error (World Example_spec.s0 [])).
  unfold Example_onError.declaration. repeat constructor.
Defined.

(** X9.  The order in which a declaration calls two different methods
    does not matter: swapping two adjacent calls to different methods,
    anywhere in the chain, gives the same run. *)
Theorem declaration_order_is_irrelevant (before after : list builder_call)
    (c1 c2 : builder_call) (w : world) :
  BuilderCalls.method_name c1 ≠ BuilderCalls.method_name c2 →
  runSaga (before ++ c1 :: c2 :: after) w
  = runSaga (before ++ c2 :: c1 :: after) w.
Proof.
  intros Hne. unfold runSaga. rewrite !sagaCollectorFn_app.
  destruct (sagaCollectorFn before empty_saga) as [saga|x]; [|done].
  cbn [mbind completion_bind].
  change (sagaCollectorFn (c1 :: c2 :: after) saga)
    with (saga1 ← collector c1 saga;
          saga2 ← collector c2 saga1; sagaCollectorFn after saga2).
  change (sagaCollectorFn (c2 :: c1 :: after) saga)
    with (saga1 ← collector c2 saga;
          saga2 ← collector c1 saga1; sagaCollectorFn after saga2).
  destruct c1, c2; simpl in *; done.
Qed.

Lemma declaration_order_is_irrelevant_witness :
  runSaga ([] ++ CallEffect Example_spec.network_down
              :: CallUpdate Example_spec.set_flag :: [])
    (World Example_spec.s0 [])
  = runSaga ([] ++ CallUpdate Example_spec.set_flag
                :: CallEffect Example_spec.network_down :: [])
      (World Example_spec.s0 []).
Proof.
  apply (declaration_order_is_irrelevant [] []
           (CallEffect Example_spec.network_down)
           (CallUpdate Example_spec.set_flag) (World Example_spec.s0 [])).
  vm_compute. discriminate.
Defined.

(** X10.  A saga with an update stage and no effect stage makes its
    optimistic change and nothing else: the change is committed, nothing
    is left pending, and neither postEffect nor onError is ever called,
    whatever happens on the atom afterwards. *)
Theorem update_without_effect_is_permanent (saga : Saga) (u : update_fn)
    (w : world) (next : obj) (ctx : value) (meanwhile : M unit) :
  update saga = Some u → effect saga = None →
  u (store w) = Normal (next, ctx) →
  run_saga_descriptor saga meanwhile w
  = meanwhile
      (World next (trace w ++ [ESetAtomValue; ECallUpdate (store w);
         EApplyPatches (c_patches (capture u (store w)))])).
Proof.
  intros Hupd Heff Hu. unfold run_saga_descriptor, run_stages.
  rewrite Hupd, Heff. unfold mbind, M_bind.
  rewrite (optimistic_update_Normal u w next ctx Hu). unfold mret, M_ret.
  by destruct (meanwhile _) as [[[]|x] w2].
Qed.

Lemma update_without_effect_is_permanent_witness :
  run_saga_descriptor Example_no_effect.saga
    (concurrent_update Example_spec.bump_count) (World Example_spec.s0 [])
  = concurrent_update Example_spec.bump_count
      (World Example_spec.s1
         (trace (World Example_spec.s0 [])
          ++ [ESetAtomValue; ECallUpdate (store (World Example_spec.s0 []));
              EApplyPatches
                (c_patches (capture Example_spec.set_flag
                              (store (World Example_spec.s0 []))))])).
Proof.
  apply (update_without_effect_is_permanent Example_no_effect.saga
           Example_spec.set_flag (World Example_spec.s0 []) Example_spec.s1
           (VObj ∅)); reflexivity.
Defined.

(** X11.  An effect function that throws before it returns a promise is
    outside the [.catch]: the exception reaches the caller of [runSaga],
    the optimistic update stays committed, no rollback is made and no
    handler is left pending. *)
Theorem effect_throwing_synchronously_escapes (saga : Saga) (u : update_fn)
    (e : effect_fn) (w : world) (next : obj) (ctx x : value) :
  update saga = Some u → effect saga = Some e →
  u (store w) = Normal (next, ctx) →
  e (next_state_of (capture u (store w)) next) ctx = Throw x →
  run_stages saga w
  = (Throw x,
     World next (trace w ++ [ESetAtomValue; ECallUpdate (store w);
        EApplyPatches (c_patches (capture u (store w)));
        ECallEffect (next_state_of (capture u (store w)) next) ctx])).
Proof.
  intros Hupd Heff Hu He.
  by rewrite (run_stages_effect saga u e w next ctx Hupd Heff Hu), He.
Qed.

Lemma effect_throwing_synchronously_escapes_witness :
  run_stages Example_effect_throws.saga (World Example_spec.s0 [])
  = (Throw (VStr "offline"),
     World Example_spec.s1
       (trace (World Example_spec.s0 [])
        ++ [ESetAtomValue; ECallUpdate (store (World Example_spec.s0 []));
            EApplyPatches
              (c_patches (capture Example_spec.set_flag
                            (store (World Example_spec.s0 []))));
            ECallEffect
              (next_state_of
                 (capture Example_spec.set_flag
                    (store (World Example_spec.s0 []))) Example_spec.s1)
              (VObj ∅)])).
Proof.
  apply (effect_throwing_synchronously_escapes Example_effect_throws.saga
           Example_spec.set_flag Example_effect_throws.offline
           (World Example_spec.s0 []) Example_spec.s1 (VObj ∅)
           (VStr "offline")); reflexivity.
Defined.

(** X12.  When the effect rejects and nothing else has touched the atom,
    the rollback restores exactly the value the store held before the
    update, and the onError stage of the descriptor, if any, is run on
    that restored value. *)
Theorem rejected_effect_restores_store (saga : Saga) (u : update_fn)
    (e : effect_fn) (s0 s1 : obj) (ctx err : value) :
  update saga = Some u → effect saga = Some e →
  u s0 = Normal (s1, ctx) →
  e (next_state_of (capture u s0) s1) ctx = Normal (Rejects err) →
  match onError saga with
  | None =>
      run_saga_descriptor saga (mret ()) (World s0 [])
      = (Normal (),
         World s0 (trace (after_update (World s0 []) u s1 ctx)
                   ++ [ESetAtomValue;
                       EApplyPatches (c_inverse (capture u s0))]))
  | Some f =>
      ∀ s4, f err s0 = Normal s4 →
      run_saga_descriptor saga (mret ()) (World s0 [])
      = (Normal (),
         World s4 (trace (after_update (World s0 []) u s1 ctx)
                   ++ [ESetAtomValue;
                       EApplyPatches (c_inverse (capture u s0));
                       ESetAtomValue; ECallOnError err s0]))
  end.
Proof.
  intros Hupd Heff Hu He.
  assert (Hrun : run_saga_descriptor saga (mret ()) (World s0 [])
                 = on_rejected
                     (mkPending (Rejects err) (postEffect saga)
                        (c_inverse (capture u s0)) (onError saga))
                     err (after_update (World s0 []) u s1 ctx)).
  { unfold run_saga_descriptor, mbind, M_bind.
    rewrite (run_stages_effect saga u e (World s0 []) s1 ctx Hupd Heff Hu).
    cbn [store]. by rewrite He. }
  rewrite Hrun, (on_rejected_Normal _ err _ s0).
  2: { by apply (capture_inverse u s0 s1 ctx). }
  cbn [pd_onError pd_inversePatches].
  destruct (onError saga) as [f|]; [|done]. intros s4 Hf. cbn zeta.
  by rewrite Hf.
Qed.

Lemma rejected_effect_restores_store_witness :
  run_saga_descriptor Example_onError.saga (mret ()) (World Example_spec.s0 [])
  = (Normal (),
     World (<["error" := VStr "network down"]> Example_spec.s0)
       (trace (after_update (World Example_spec.s0 []) Example_spec.set_flag
                 Example_spec.s1 (VObj ∅))
        ++ [ESetAtomValue;
            EApplyPatches
              (c_inverse (capture Example_spec.set_flag Example_spec.s0));
            ESetAtomValue;
            ECallOnError (VStr "network down") Example_spec.s0])).
Proof.
  refine (rejected_effect_restores_store Example_onError.saga
            Example_spec.set_flag Example_spec.network_down
            Example_spec.s0 Example_spec.s1 (VObj ∅) (VStr "network down")
            _ _ _ _ (<["error" := VStr "network down"]> Example_spec.s0) _);
    reflexivity.
Defined.

(** X13.  When the inverse patches the engine captured no longer apply to
    what the store holds (the update assigned a property of a nested
    object and another writer has removed that object), the rollback
    update throws: the store keeps the other writer's value, the onError
    stage is not run even if the descriptor has one, and the handler
    chain ends rejected with the patch engine's error instead of the
    effect's. *)
Theorem failed_rollback_skips_onError (saga : Saga) (u : update_fn)
    (e : effect_fn) (U' : obj → completion obj) (s0 s1 s2 : obj)
    (ctx err x : value) :
  update saga = Some u → effect saga = Some e →
  u s0 = Normal (s1, ctx) →
  e (next_state_of (capture u s0) s1) ctx = Normal (Rejects err) →
  U' s1 = Normal s2 →
  applyPatches (c_inverse (capture u s0)) s2 = Throw x →
  x = err_unresolved ∧
  run_saga_descriptor saga (concurrent_update U') (World s0 [])
  = (Throw err_unresolved,
     World s2 (trace (after_update (World s0 []) u s1 ctx)
               ++ [ESetAtomValue]
               ++ [ESetAtomValue; EApplyPatches (c_inverse (capture u s0))])).
Proof.
  intros Hupd Heff Hu He HU Happ.
  pose proof (applyPatches_Throw _ _ _ Happ) as ->. split; [done|].
  unfold run_saga_descriptor, mbind, M_bind.
  rewrite (run_stages_effect saga u e (World s0 []) s1 ctx Hupd Heff Hu).
  cbn [store]. rewrite He.
  rewrite (concurrent_update_Normal U' (after_update (World s0 []) u s1 ctx) s2 HU).
  unfold settle. cbn [pd_promise].
  rewrite (on_rejected_Throw _ err (World s2 _) err_unresolved); [|done].
  cbn [store trace pd_inversePatches]. by rewrite <- app_assoc.
Qed.

Lemma failed_rollback_skips_onError_witness :
  err_unresolved = err_unresolved ∧
  run_saga_descriptor Example_failed_rollback.saga
    (concurrent_update Example_failed_rollback.delete_a)
    (World Example_failed_rollback.s0 [])
  = (Throw err_unresolved,
     World Example_failed_rollback.s2
       (trace (after_update (World Example_failed_rollback.s0 [])
                 Example_failed_rollback.set_x Example_failed_rollback.s1 VNull)
        ++ [ESetAtomValue]
        ++ [ESetAtomValue;
            EApplyPatches
              (c_inverse (capture Example_failed_rollback.set_x
                            Example_failed_rollback.s0))])).
Proof.
  refine (failed_rollback_skips_onError Example_failed_rollback.saga
            Example_failed_rollback.set_x Example_spec.network_down
            Example_failed_rollback.delete_a Example_failed_rollback.s0
            Example_failed_rollback.s1 Example_failed_rollback.s2
            VNull (VStr "network down") err_unresolved _ _ _ _ _ _).
  - reflexivity.
  - reflexivity.
  - vm_compute. reflexivity.
  - reflexivity.
  - vm_compute. reflexivity.
  - vm_compute. reflexivity.
Defined.



(** X15.  Last rollback wins: when the update stage changed a top-level
    property (to or from a value that is not an object, or by adding or
    deleting it), and the inverse patches the engine captured apply to
    what the store holds when the effect rejects, the property is back as
    it was before the update even if another writer has set that same
    property while the effect was in flight; that writer's change to it
    is lost. *)
Theorem rollback_overrides_concurrent_write (calls : list builder_call)
    (saga : Saga) (u : update_fn) (e : effect_fn) (U' : obj → completion obj)
    (s0 s1 s2 s3 : obj) (ctx err : value) (k : string) :
  sagaCollectorFn calls empty_saga = Normal saga →
  update saga = Some u → effect saga = Some e →
  u s0 = Normal (s1, ctx) →
  e (next_state_of (capture u s0) s1) ctx = Normal (Rejects err) →
  U' s1 = Normal s2 →
  s0 !! k ≠ s1 !! k →
  (∀ oa ob, ¬ (s0 !! k = Some (VObj oa) ∧ s1 !! k = Some (VObj ob))) →
  applyPatches (c_inverse (capture u s0)) s2 = Normal s3 →
  (run calls (concurrent_update U') (World s0 [])).1 = Normal () ∧
  store (run calls (concurrent_update U') (World s0 [])).2 !! k = s0 !! k.
Proof.
  intros Hcol Hupd Heff Hu He HU Hne Hobj Happ.
  unfold run, runSaga, mbind, M_bind. rewrite Hcol.
  rewrite (run_stages_effect saga u e (World s0 []) s1 ctx Hupd Heff Hu).
  cbn [store]. rewrite He.
  rewrite (concurrent_update_Normal U' (after_update (World s0 []) u s1 ctx) s2 HU).
  rewrite (settle_rejected _ err (World s2 _) s3); [|done|exact Happ|].
  - split; [done|]. cbn [snd store].
    exact (patches_force_slot (c_inverse (capture u s0)) s0 s1 k
             (capture_inverse u s0 s1 ctx Hu) Hne Hobj s2 s3 Happ).
  - simpl. by rewrite (collector_keeps_onError _ _ _ Hcol).
Qed.

Lemma rollback_overrides_concurrent_write_witness :
  (run Example_spec.declaration
     (concurrent_update Example_same_field.overwrite_flag)
     (World Example_spec.s0 [])).1 = Normal () ∧
  store (run Example_spec.declaration
           (concurrent_update Example_same_field.overwrite_flag)
           (World Example_spec.s0 [])).2 !! "flag"
  = Example_spec.s0 !! "flag".
Proof.
  apply (rollback_overrides_concurrent_write Example_spec.declaration
           Example_spec.saga Example_spec.set_flag Example_spec.network_down
           Example_same_field.overwrite_flag Example_spec.s0 Example_spec.s1
           (<["flag" := VStr "maybe"]> Example_spec.s1) Example_spec.s0
           (VObj ∅) (VStr "network down") "flag").
  - reflexivity.
  - reflexivity.
  - reflexivity.
  - reflexivity.
  - reflexivity.
  - reflexivity.
  - vm_compute. discriminate.
  - intros oa ob [H _]. vm_compute in H. discriminate H.
  - vm_compute. reflexivity.
Defined.

(** X16.  A saga whose update stage does not change its draft captures no
    inverse patches: its effect function is handed the revoked draft, and
    when the promise it returns rejects, the rollback update changes
    nothing, whatever other writers have committed in the meantime. *)
Theorem unchanged_update_rolls_back_nothing (calls : list builder_call)
    (saga : Saga) (u : update_fn) (e : effect_fn) (U' : obj → completion obj)
    (s0 s1 s2 : obj) (ctx err : value) :
  sagaCollectorFn calls empty_saga = Normal saga →
  update saga = Some u → effect saga = Some e →
  u s0 = Normal (s1, ctx) → c_modified (capture u s0) = false →
  e RevokedDraft ctx = Normal (Rejects err) →
  U' s0 = Normal s2 →
  s1 = s0 ∧
  run calls (concurrent_update U') (World s0 [])
  = (Normal (),
     World s2 [ESetAtomValue; ECallUpdate s0; EApplyPatches [];
               ECallEffect RevokedDraft ctx;
               ESetAtomValue; ESetAtomValue; EApplyPatches []]).
Proof.
  intros Hcol Hupd Heff Hu Hmod He HU.
  destruct (capture_unmodified u s0 Hmod) as [Hfwd Hinv].
  pose proof (capture_forward u s0 s1 ctx Hu) as Hf. rewrite Hfwd in Hf.
  injection Hf as <-. split; [done|].
  unfold run, runSaga, mbind, M_bind. rewrite Hcol.
  rewrite (run_stages_effect saga u e (World s0 []) s0 ctx Hupd Heff Hu).
  unfold after_update, next_state_of. cbn [store trace].
  rewrite Hmod, Hfwd, Hinv, He.
  rewrite (concurrent_update_Normal U' (World s0 _) s2 HU).
  rewrite (settle_rejected _ err (World s2 _) s2); [done|done|done|].
  simpl. by rewrite (collector_keeps_onError _ _ _ Hcol).
Qed.

Lemma unchanged_update_rolls_back_nothing_witness :
  Example_spec.s0 = Example_spec.s0 ∧
  run Example_read_only.declaration_failing
    (concurrent_update Example_spec.bump_count) (World Example_spec.s0 [])
  = (Normal (),
     World (<["count" := VNum 1]> Example_spec.s0)
       [ESetAtomValue; ECallUpdate Example_spec.s0; EApplyPatches [];
        ECallEffect RevokedDraft (VNum 0);
        ESetAtomValue; ESetAtomValue; EApplyPatches []]).
Proof.
  apply (unchanged_update_rolls_back_nothing
           Example_read_only.declaration_failing
           Example_read_only.saga Example_read_only.read_count
           Example_spec.network_down Example_spec.bump_count
           Example_spec.s0 Example_spec.s0
           (<["count" := VNum 1]> Example_spec.s0)
           (VNum 0) (VStr "network down")); reflexivity.
Defined.
